(** * NDK core: fetch orchestration, connection, signer and wallet payment

    A shallow embedding of the [NDK] class (constructor, [addExplicitRelay],
  [connect], [subscribe], [fetchEvent], [fetchEvents], [assertSigner]) and
  of the cashu wallet's [payLn], with the properties of their
  specification stated and proved over the embedding.

  JavaScript numbers are IEEE 754 doubles ([float]); strings are [string];
  a [Map<string, _>] is a [gmap string _]; a promise is its settlement;
  callbacks registered on a subscription or a timer are functions on the
  state their closure captures, run on the signal that triggers them. *)

From Stdlib Require Import ZArith List Floats.
From stdpp Require Import base gmap strings list fin_maps fin_sets.

(** ** The JavaScript runtime the code relies on *)

Module Js.

(** What a [throw] or a [reject] carries: an [Error] object with its
    message, a bare string, or [null] or [undefined], the two values on
    which reading a property throws. *)
Inductive Thrown : Type :=
| Error (message : string)
| Reason (reason : string)
| Nullish.

(** A promise, by its settlement. *)
Inductive Promise (A : Type) : Type :=
| Pending
| Fulfilled (value : A)
| Rejected (why : Thrown).
Arguments Pending {A}.
Arguments Fulfilled {A} value.
Arguments Rejected {A} why.

(** [resolve(v)] and [reject(e)] settle a pending promise and do nothing
    to a settled one. *)
Definition resolve {A} (v : A) (p : Promise A) : Promise A :=
  match p with Pending => Fulfilled v | _ => p end.

Definition reject {A} (e : Thrown) (p : Promise A) : Promise A :=
  match p with Pending => Rejected e | _ => p end.

(** The outcome of awaiting a promise that has settled. *)
Inductive Settled (A : Type) : Type :=
| Ok (value : A)
| Failed (why : Thrown).
Arguments Ok {A} value.
Arguments Failed {A} why.

(** [Promise.allSettled]: one record per input promise, never a
    rejection. *)
Inductive SettledResult (A : Type) : Type :=
| StatusFulfilled (value : A)
| StatusRejected (why : Thrown).
Arguments StatusFulfilled {A} value.
Arguments StatusRejected {A} why.

Definition allSettled {A} (ps : list (Settled A)) : Settled (list (SettledResult A)) :=
  Ok (map (fun p => match p with
                    | Ok v => StatusFulfilled v
                    | Failed e => StatusRejected e
                    end) ps).

(** [p.then(f)] for a settled [p]. *)
Definition then_ {A B} (p : Settled A) (f : A -> B) : Settled B :=
  match p with Ok v => Ok (f v) | Failed e => Failed e end.

(** Truthiness: a number is falsy when it is [0], [-0] or [NaN]; a string
    when it is empty; [undefined] always. *)
Definition truthy_number (x : float) : bool :=
  negb (PrimFloat.is_zero x || PrimFloat.is_nan x).

Definition truthy_string (s : string) : bool :=
  negb (String.eqb s "").

(** [x || d] on an optional number, [x ?? d] on an optional value. *)
Definition or_number (x : option float) (d : float) : float :=
  match x with
  | Some v => if truthy_number v then v else d
  | None => d
  end.

Definition nullish {A} (x : option A) (d : A) : A :=
  match x with Some v => v | None => d end.

(** The string behind [if (x)] on [string | undefined | null]: the value
    when it is truthy. *)
Definition truthy (x : option string) : option string :=
  match x with
  | Some v => if truthy_string v then Some v else None
  | None => None
  end.

End Js.

(** ** Events

  [NDKEvent] is declared outside this file. The orchestration code reads
  [created_at] and [kind], calls [isReplaceable()] and
  [deduplicationKey()], and assigns [ndk]. Each method is a field holding
  what it returns for the event; [ndk] records that the event has been
  bound to this instance ([event.ndk = this]). [created_at] is read as
  [created_at!], the timestamp every delivered event carries. *)

Record NDKEvent : Type := mkEvent {
  id : string;
  pubkey : string;
  kind : Z;
  created_at : Z;
  isReplaceable : bool;
  deduplicationKey : string;
  ndk : bool
}.

(** [event.ndk = this] *)
Definition set_ndk (event : NDKEvent) : NDKEvent :=
  mkEvent (id event) (pubkey event) (kind event) (created_at event)
          (isReplaceable event) (deduplicationKey event) true.

#[global] Instance NDKEvent_eq_dec : EqDecision NDKEvent.
Proof. solve_decision. Defined.

#[global] Instance NDKEvent_countable : Countable NDKEvent.
Proof.
  refine (inj_countable'
    (fun e => (id e, pubkey e, kind e, created_at e,
               isReplaceable e, deduplicationKey e, ndk e))
    (fun '(i, p, k, c, r, d, n) => mkEvent i p k c r d n) _).
  by intros [].
Defined.

(** ** fetchEvent: the closure of the promise executor

  The executor creates the subscription [s], an interval [t] (a progress
  log every 1500 ms), a timeout [t2] (10000 ms), and registers the
  ["event"] and ["eose"] handlers. The state below is what those
  callbacks capture. *)

Module FetchEvent.

Record State : Type := mkState {
  fetchedEvent : option NDKEvent;
  promise : Js.Promise (option NDKEvent);
  t_live : bool;        (* [t] set and not cleared *)
  t2_live : bool;       (* [t2] set, not cleared, not fired *)
  s_started : bool;     (* [s.start()] called *)
  s_stops : nat         (* calls of [s.stop()] made by fetchEvent *)
}.

(** What can run after the executor returns. *)
Inductive Signal : Type :=
| Event (event : NDKEvent)   (* [s] emits "event" *)
| Eose                       (* [s] emits "eose" *)
| IntervalTick               (* [t] fires *)
| Timeout.                   (* [t2] fires *)

(** State when the executor returns: nothing fetched, both timers set,
    [s.start()] called. *)
Definition init : State :=
  mkState None Js.Pending true true true 0.

(** [fetchedEvent.created_at! < event.created_at!], behind
    [!fetchedEvent ||]. *)
Definition supersedes (event : NDKEvent) (fetched : option NDKEvent) : bool :=
  match fetched with
  | None => true
  | Some f => (created_at f <? created_at event)%Z
  end.

(** [s.on("event", (event) => ...)] *)
Definition onEvent (event : NDKEvent) (st : State) : State :=
  let event := set_ndk event in
  if negb (isReplaceable event) then
    mkState (fetchedEvent st) (Js.resolve (Some event) (promise st))
            false false (s_started st) (s_stops st)
  else if supersedes event (fetchedEvent st) then
    mkState (Some event) (promise st)
            (t_live st) (t2_live st) (s_started st) (s_stops st)
  else st.

(** [s.on("eose", () => ...)] *)
Definition onEose (st : State) : State :=
  mkState (fetchedEvent st) (Js.resolve (fetchedEvent st) (promise st))
          false false (s_started st) (s_stops st).

(** The [setTimeout] callback; a cleared timeout never runs, and a
    timeout runs once. *)
Definition onTimeout (st : State) : State :=
  if t2_live st then
    mkState (fetchedEvent st) (Js.resolve (fetchedEvent st) (promise st))
            false false (s_started st) (S (s_stops st))
  else st.

(** The [setInterval] callback only writes to the console. *)
Definition onInterval (st : State) : State := st.

Definition step (st : State) (sg : Signal) : State :=
  match sg with
  | Event event => onEvent event st
  | Eose => onEose st
  | IntervalTick => onInterval st
  | Timeout => onTimeout st
  end.

Definition run (signals : list Signal) (st : State) : State :=
  fold_left step signals st.

(** The candidate kept after a run of replaceable events. *)
Definition keep (fetched : option NDKEvent) (event : NDKEvent) : option NDKEvent :=
  if supersedes (set_ndk event) fetched then Some (set_ndk event) else fetched.

End FetchEvent.


(** ** fetchEvents: the closure of the promise executor

    [events] is the [Map<string, NDKEvent>] keyed by dedup key; the promise
    resolves with [new Set(events.values())]. The entries of [events] are
    objects with pairwise different dedup keys, so the [Set], which compares
    objects by identity, is the finite set of those values. [dedupEvent] is
    imported from the events module and taken as a parameter. *)

Module FetchEvents.

Record State : Type := mkState {
  events : gmap string NDKEvent;
  promise : Js.Promise (gset NDKEvent)
}.

Inductive Signal : Type :=
| Event (event : NDKEvent)      (* the subscription emits "event" *)
| EventDup (event : NDKEvent)   (* the subscription emits "event:dup" *)
| Eose.                         (* the subscription emits "eose" *)

Definition init : State := mkState ∅ Js.Pending.

Section Handlers.
Variable dedupEvent : NDKEvent -> NDKEvent -> NDKEvent.

(** [const onEvent = (event) => ...], registered for "event" and
    "event:dup". *)
Definition onEvent (event : NDKEvent) (st : State) : State :=
  let dedupKey := deduplicationKey event in
  let existingEvent := events st !! dedupKey in
  let event := match existingEvent with
               | Some existing => dedupEvent existing event
               | None => event
               end in
  let event := set_ndk event in
  mkState (<[dedupKey := event]> (events st)) (promise st).

(** [relaySetSubscription.on("eose", () => resolve(new Set(events.values())))] *)
Definition onEose (st : State) : State :=
  mkState (events st) (Js.resolve (map_img (events st)) (promise st)).

Definition step (st : State) (sg : Signal) : State :=
  match sg with
  | Event event => onEvent event st
  | EventDup event => onEvent event st
  | Eose => onEose st
  end.

Definition run (signals : list Signal) (st : State) : State :=
  fold_left step signals st.

End Handlers.

(** The event a delivery carries, if it is one. *)
Definition delivered (sg : Signal) : option NDKEvent :=
  match sg with
  | Event event | EventDup event => Some event
  | Eose => None
  end.

End FetchEvents.

(** ** Relays, relay sets and the pool *)

(** An authentication policy is an opaque callback, known by a handle. *)
Definition NDKAuthPolicy : Type := nat.

(** A relay object: [oid] is the identity of the object ([===] compares
    it), [url] its (normalized) URL. *)
Record NDKRelay : Type := mkRelay {
  oid : nat;
  url : string;
  authPolicy : option NDKAuthPolicy
}.

#[global] Instance NDKRelay_eq_dec : EqDecision NDKRelay.
Proof. solve_decision. Defined.

(** [NDKRelaySet]: the relays of the set, in insertion order. *)
Definition NDKRelaySet : Type := list NDKRelay.

Module Pool.

(** Modelled from the spec: the class NDKPool (relay/pool) is not among the
    sources. The pool owns a mapping URL -> Relay, a set of blacklisted
    URLs and a set of temporarily-added relays; [connecting] holds the URLs
    of the relays it has told to connect. *)
Record NDKPool : Type := mkPool {
  name : string;
  relays : gmap string NDKRelay;
  blacklistRelayUrls : gset string;
  temporary : gset string;
  connecting : gset string
}.

(** Modelled from the spec: NDKPool.addRelay, "registers or reuses an
    existing Relay for that URL and optionally connects it immediately;
    returns the canonical instance"; "blacklisted URLs are never
    auto-connected". *)
Definition addRelay (relay : NDKRelay) (connect : bool) (p : NDKPool)
  : NDKPool * NDKRelay :=
  let canonical := default relay (relays p !! url relay) in
  let go := connect && bool_decide (url relay ∉ blacklistRelayUrls p) in
  (mkPool (name p)
          (<[url relay := canonical]> (relays p))
          (blacklistRelayUrls p)
          (temporary p)
          (if go then {[url relay]} ∪ connecting p else connecting p),
   canonical).

(** Modelled from the spec: NDKPool.useTemporaryRelay, "adds a relay that
    was pulled in only to satisfy one subscription's explicit relay set". *)
Definition useTemporaryRelay (relay : NDKRelay) (p : NDKPool) : NDKPool :=
  match relays p !! url relay with
  | Some _ => p
  | None =>
      mkPool (name p) (<[url relay := relay]> (relays p))
             (blacklistRelayUrls p) ({[url relay]} ∪ temporary p)
             (connecting p)
  end.

(** Modelled from the spec: NDKPool.connect, "instructs every
    non-blacklisted relay to connect"; how its promise settles is decided
    by the relays and is an input of [NDK.connect] below. *)
Definition connect (p : NDKPool) : NDKPool :=
  mkPool (name p) (relays p) (blacklistRelayUrls p) (temporary p)
         (dom (relays p) ∖ blacklistRelayUrls p ∪ connecting p).

Definition rename (n : string) (p : NDKPool) : NDKPool :=
  mkPool n (relays p) (blacklistRelayUrls p) (temporary p) (connecting p).

End Pool.

(** ** Filters, subscriptions, signers *)

Record NDKFilter : Type := mkFilter {
  ids : list string;
  authors : list string;
  kinds : list Z;
  since : option Z;
  until : option Z;
  limit : option Z
}.

Record NDKSubscriptionOptions : Type := mkSubOpts {
  closeOnEose : option bool;
  subId : option string
}.

(** [{ ...(opts || {}), closeOnEose: true }] *)
Definition withCloseOnEose (opts : option NDKSubscriptionOptions)
  : NDKSubscriptionOptions :=
  match opts with
  | Some o => mkSubOpts (Some true) (subId o)
  | None => mkSubOpts (Some true) None
  end.

(** A subscription as [subscribe] builds it; [startScheduled] stands for
    the pending [setTimeout(() => subscription.start(), 0)]. *)
Record NDKSubscription : Type := mkSub {
  filters : list NDKFilter;
  opts : NDKSubscriptionOptions;
  relaySet : option NDKRelaySet;
  startScheduled : bool
}.

(** [subscription.hasAuthorsFilter()] and the authors [subscribe] collects
    ([filter.authors && filter.authors?.length > 0]). *)
Definition hasAuthors (f : NDKFilter) : bool :=
  match authors f with [] => false | _ :: _ => true end.

Definition hasAuthorsFilter (s : NDKSubscription) : bool :=
  existsb hasAuthors (filters s).

Module Signer.

(** [NDKSigner]: [relays] is the optional method; when present, what
    awaiting [relays()] gives. *)
Record NDKSigner : Type := mkSigner {
  pubkey : string;
  relays : option (Js.Settled (list NDKRelay))
}.

End Signer.

(** ** The NDK instance *)

Inductive Notification : Type :=
| SignerReady (signer : Signer.NDKSigner)   (* "signer:ready" *)
| SignerRequired.                           (* "signer:required" *)

Module Params.

(** [NDKConstructorParams]; an absent option is [None]. *)
Record NDKConstructorParams : Type := mkParams {
  explicitRelayUrls : option (list string);
  blacklistRelayUrls : option (list string);
  outboxRelayUrls : option (list string);
  enableOutboxModel : option bool;
  autoConnectUserRelays : option bool;
  autoFetchUserMutelist : option bool;
  signer : option Signer.NDKSigner;
  clientName : option string;
  clientNip89 : option string;
  relayAuthDefaultPolicy : option NDKAuthPolicy;
  signatureVerificationWorker : option nat;
  validationRatio : option float
}.

(** [opts = {}] *)
Definition empty : NDKConstructorParams :=
  mkParams None None None None None None None None None None None None.

End Params.

(** The fields of the instance the operations below read or write.
    [subManager] is the registry of subscriptions in the order of [add];
    [outboxTracker] holds the authors passed to [trackUsers]; [emitted] is
    what the instance has emitted, oldest first. *)
Record NDK : Type := mkNDK {
  explicitRelayUrls : list string;
  pool : Pool.NDKPool;
  outboxPool : option Pool.NDKPool;
  _signer : option Signer.NDKSigner;
  autoConnectUserRelays : bool;
  autoFetchUserMutelist : bool;
  clientName : option string;
  clientNip89 : option string;
  relayAuthDefaultPolicy : option NDKAuthPolicy;
  asyncSigVerification : bool;
  validationRatio : float;
  subManager : list NDKSubscription;
  outboxTracker : option (list string);
  emitted : list Notification
}.

Definition DEFAULT_OUTBOX_RELAYS : list string :=
  ["wss://purplepag.es/"; "wss://profiles.nos.social/"].

Definition DEFAULT_BLACKLISTED_RELAYS : list string :=
  ["wss://brb.io/"; "wss://nostr.mutinywallet.com/"].

(** Functions imported from modules that are not among the sources. *)
Class Collaborators : Type := {
  (* relay/index.js: the URL a new NDKRelay keeps *)
  normalizeRelayUrl : string -> string;
  (* subscription/utils.js *)
  filterFromId : string -> option NDKFilter;
  isNip33AValue : string -> bool;
  relaysFromBech32 : string -> list NDKRelay;
  (* relay/sets/utils.js *)
  correctRelaySet : NDKRelaySet -> Pool.NDKPool -> NDKRelaySet;
  (* JSON.stringify of the argument of fetchEvent *)
  JSON_stringify : string + NDKFilter -> string;
  (* events/dedup.js *)
  dedupEvent : NDKEvent -> NDKEvent -> NDKEvent
}.

Section Operations.
Context `{Collaborators}.

(** Modelled from the spec: the NDKRelay constructor (relay/index.js) is not
    among the sources; "Relay: identity = normalized URL". [heap] is the
    next free object identity, so every [new] gives a distinct object. *)
Definition new_NDKRelay (u : string) (policy : option NDKAuthPolicy) (heap : nat)
  : NDKRelay * nat :=
  (mkRelay heap (normalizeRelayUrl u) policy, S heap).

(** Modelled from the spec: the NDKPool constructor is not among the
    sources; the pool "owns the set of known Relay instances" for the
    URLs it is given and the set of blacklisted URLs. *)
Definition new_NDKPool (relayUrls blacklist : list string) (heap : nat)
  : Pool.NDKPool * nat :=
  fold_left
    (fun '(p, heap) u =>
       let '(relay, heap) := new_NDKRelay u None heap in
       (fst (Pool.addRelay relay false p), heap))
    relayUrls
    (Pool.mkPool "" ∅ (list_to_set blacklist) ∅ ∅, heap).

(** [constructor(opts = {})]. The signer setter emits "signer:ready" for a
    signer; what it chains on [signer.user()] runs in a later turn. *)
Definition new_NDK (opts : Params.NDKConstructorParams) (heap : nat) : NDK * nat :=
  let blacklist :=
    default DEFAULT_BLACKLISTED_RELAYS (Params.blacklistRelayUrls opts) in
  let '(pool, heap) :=
    new_NDKPool (default [] (Params.explicitRelayUrls opts)) blacklist heap in
  let pool := Pool.rename "main" pool in
  let '(outboxPool, heap) :=
    match Params.enableOutboxModel opts with
    | Some true =>
        let '(p, heap) :=
          new_NDKPool (default DEFAULT_OUTBOX_RELAYS (Params.outboxRelayUrls opts))
                      blacklist heap in
        (Some (Pool.rename "outbox" p), heap)
    | _ => (None, heap)
    end in
  (mkNDK
     (default [] (Params.explicitRelayUrls opts))
     pool
     outboxPool
     (Params.signer opts)
     (Js.nullish (Params.autoConnectUserRelays opts) true)
     (Js.nullish (Params.autoFetchUserMutelist opts) true)
     (Params.clientName opts)
     (Params.clientNip89 opts)
     (Params.relayAuthDefaultPolicy opts)
     (bool_decide (is_Some (Params.signatureVerificationWorker opts)))
     (Js.or_number (Params.validationRatio opts) 1%float)
     []
     (match outboxPool with Some _ => Some [] | None => None end)
     (match Params.signer opts with
      | Some signer => [SignerReady signer]
      | None => []
      end),
   heap).

Definition set_pool (this : NDK) (p : Pool.NDKPool) : NDK :=
  mkNDK (explicitRelayUrls this) p (outboxPool this) (_signer this)
        (autoConnectUserRelays this) (autoFetchUserMutelist this)
        (clientName this) (clientNip89 this) (relayAuthDefaultPolicy this)
        (asyncSigVerification this) (validationRatio this)
        (subManager this) (outboxTracker this) (emitted this).

Definition set_outboxPool (this : NDK) (p : option Pool.NDKPool) : NDK :=
  mkNDK (explicitRelayUrls this) (pool this) p (_signer this)
        (autoConnectUserRelays this) (autoFetchUserMutelist this)
        (clientName this) (clientNip89 this) (relayAuthDefaultPolicy this)
        (asyncSigVerification this) (validationRatio this)
        (subManager this) (outboxTracker this) (emitted this).

Definition set_explicitRelayUrls (this : NDK) (urls : list string) : NDK :=
  mkNDK urls (pool this) (outboxPool this) (_signer this)
        (autoConnectUserRelays this) (autoFetchUserMutelist this)
        (clientName this) (clientNip89 this) (relayAuthDefaultPolicy this)
        (asyncSigVerification this) (validationRatio this)
        (subManager this) (outboxTracker this) (emitted this).

Definition set_subManager (this : NDK) (subs : list NDKSubscription) : NDK :=
  mkNDK (explicitRelayUrls this) (pool this) (outboxPool this) (_signer this)
        (autoConnectUserRelays this) (autoFetchUserMutelist this)
        (clientName this) (clientNip89 this) (relayAuthDefaultPolicy this)
        (asyncSigVerification this) (validationRatio this)
        subs (outboxTracker this) (emitted this).

Definition set_outboxTracker (this : NDK) (tracked : option (list string)) : NDK :=
  mkNDK (explicitRelayUrls this) (pool this) (outboxPool this) (_signer this)
        (autoConnectUserRelays this) (autoFetchUserMutelist this)
        (clientName this) (clientNip89 this) (relayAuthDefaultPolicy this)
        (asyncSigVerification this) (validationRatio this)
        (subManager this) tracked (emitted this).

(** [this.emit(...)] *)
Definition emit (this : NDK) (n : Notification) : NDK :=
  mkNDK (explicitRelayUrls this) (pool this) (outboxPool this) (_signer this)
        (autoConnectUserRelays this) (autoFetchUserMutelist this)
        (clientName this) (clientNip89 this) (relayAuthDefaultPolicy this)
        (asyncSigVerification this) (validationRatio this)
        (subManager this) (outboxTracker this) (emitted this ++ [n]).

(** [addExplicitRelay(urlOrRelay, relayAuthPolicy?, connect = true)]; the
    result of [this.pool.addRelay] is not used. *)
Definition addExplicitRelay (this : NDK) (heap : nat)
    (urlOrRelay : string + NDKRelay) (relayAuthPolicy : option NDKAuthPolicy)
    (connect : bool) : NDK * nat * NDKRelay :=
  let '(relay, heap) :=
    match urlOrRelay with
    | inl u => new_NDKRelay u relayAuthPolicy heap
    | inr r => (r, heap)
    end in
  let this := set_pool this (fst (Pool.addRelay relay connect (pool this))) in
  let this := set_explicitRelayUrls this (explicitRelayUrls this ++ [url relay]) in
  (this, heap, relay).

(** [async connect(timeoutMs?)]. [poolConnect] and [outboxConnect] are how
    the promises of [this.pool.connect(timeoutMs)] and
    [this.outboxPool.connect(timeoutMs)] settle. *)
Definition connect (this : NDK) (timeoutMs : option Z)
    (poolConnect outboxConnect : Js.Settled unit) : NDK * Js.Settled unit :=
  let awaited : Js.Settled (list NDKRelay) :=
    match _signer this with
    | Some signer =>
        if autoConnectUserRelays this then
          match Signer.relays signer with
          | Some relays => relays
          | None => Js.Ok []
          end
        else Js.Ok []
    | None => Js.Ok []
    end in
  match awaited with
  | Js.Failed e => (this, Js.Failed e)
  | Js.Ok relays =>
      let p :=
        fold_left (fun p relay => fst (Pool.addRelay relay true p))
                  relays (pool this) in
      let this := set_pool this (Pool.connect p) in
      let connections := [poolConnect] in
      let '(this, connections) :=
        match outboxPool this with
        | Some o =>
            (set_outboxPool this (Some (Pool.connect o)),
             connections ++ [outboxConnect])
        | None => (this, connections)
        end in
      (this, Js.then_ (Js.allSettled connections) (fun _ => tt))
  end.

(** [subscribe(filters, opts?, relaySet?, autoStart = true)] *)
Definition subscribe (this : NDK) (fs : list NDKFilter)
    (o : NDKSubscriptionOptions) (rs : option NDKRelaySet) (autoStart : bool)
  : NDK * NDKSubscription :=
  let subscription := mkSub fs o rs autoStart in
  let this := set_subManager this (subManager this ++ [subscription]) in
  let this :=
    match rs with
    | Some relays =>
        set_pool this
          (fold_left (fun p relay => Pool.useTemporaryRelay relay p)
                     relays (pool this))
    | None => this
    end in
  let this :=
    match outboxPool this with
    | Some _ =>
        if hasAuthorsFilter subscription then
          let tracked := concat (map authors (List.filter hasAuthors fs)) in
          set_outboxTracker this
            (option_map (fun known => known ++ tracked) (outboxTracker this))
        else this
    | None => this
    end in
  (this, subscription).

(** The relay set [fetchEvent] passes to [subscribe]. *)
Definition fetchEvent_relaySet (this : NDK) (idOrFilter : string + NDKFilter)
    (relaySetOrRelay : option (NDKRelaySet + NDKRelay)) : option NDKRelaySet :=
  match relaySetOrRelay with
  | Some (inr relay) => Some [relay]
  | Some (inl rs) => Some rs
  | None =>
      match idOrFilter with
      | inl idStr =>
          if negb (isNip33AValue idStr) then
            match relaysFromBech32 idStr with
            | [] => None
            | relays => Some (correctRelaySet (remove_dups relays) (pool this))
            end
          else None
      | inr _ => None
      end
  end.

(** The filter [fetchEvent] subscribes with, if there is one. *)
Definition fetchEvent_filter (idOrFilter : string + NDKFilter) : option NDKFilter :=
  match idOrFilter with
  | inl idStr => filterFromId idStr
  | inr f => Some f
  end.

(** [async fetchEvent(idOrFilter, opts?, relaySetOrRelay?)], followed by
    the signals that reach its callbacks. The result is the instance
    afterwards and either what was thrown before the promise was built or
    the state of the executor's closure. *)
Definition fetchEvent (this : NDK) (idOrFilter : string + NDKFilter)
    (o : option NDKSubscriptionOptions)
    (relaySetOrRelay : option (NDKRelaySet + NDKRelay))
    (signals : list FetchEvent.Signal) : NDK * (Js.Thrown + FetchEvent.State) :=
  let rs := fetchEvent_relaySet this idOrFilter relaySetOrRelay in
  match fetchEvent_filter idOrFilter with
  | None =>
      (this, inl (Js.Error ("Invalid filter: " +:+ JSON_stringify idOrFilter)))
  | Some f =>
      let '(this, s) := subscribe this [f] (withCloseOnEose o) rs false in
      (this, inr (FetchEvent.run signals FetchEvent.init))
  end.

(** The promise [fetchEvent] returns. *)
Definition fetchEvent_promise (r : NDK * (Js.Thrown + FetchEvent.State))
  : Js.Promise (option NDKEvent) :=
  match snd r with
  | inl e => Js.Rejected e
  | inr st => FetchEvent.promise st
  end.

(** [async fetchEvents(filters, opts?, relaySet?)], followed by the signals
    that reach its callbacks. *)
Definition fetchEvents (this : NDK) (fs : list NDKFilter)
    (o : option NDKSubscriptionOptions) (rs : option NDKRelaySet)
    (signals : list FetchEvents.Signal) : NDK * FetchEvents.State :=
  let '(this, relaySetSubscription) :=
    subscribe this fs (withCloseOnEose o) rs false in
  (this, FetchEvents.run dedupEvent signals FetchEvents.init).

(** [assertSigner()]: the instance afterwards and what was thrown, if
    anything. *)
Definition assertSigner (this : NDK) : NDK * option Js.Thrown :=
  match _signer this with
  | None => (emit this SignerRequired, Some (Js.Error "Signer required"))
  | Some _ => (this, None)
  end.

End Operations.

(** ** The cashu wallet: paying a lightning invoice *)

Module Cashu.

Inductive WalletNotification : Type :=
| InsufficientBalance (amount : float) (pr : string).   (* "insufficient_balance" *)

(** The wallet as [payLn] uses it: [mintBalances] as [Object.entries]
    lists it, and what the wallet has emitted, oldest first. *)
Record NDKCashuWallet : Type := mkWallet {
  mintBalances : list (string * float);
  emitted : list WalletNotification
}.

(** [this] of [payLn]: the wallet, [this.info.pr] and [this.getAmount()]
    (millisatoshis). *)
Record NDKCashuPay : Type := mkPay {
  wallet : NDKCashuWallet;
  pr : option string;
  getAmount : float
}.

(** What [payLn] leaves behind: the wallet, the mints [executePayment] was
    called for, in order, and the returned promise. *)
Record Outcome : Type := mkOutcome {
  wallet_after : NDKCashuWallet;
  attempted : list string;
  returned : Js.Promise string
}.

(** [getEligibleMints(mintBalances, amount, useMint, debug)] *)
Definition getEligibleMints (balances : list (string * float)) (amount : float)
    (useMint : option string) : list string :=
  map fst
    (List.filter
       (fun '(mint, balance) =>
          if match useMint with
             | Some u => Js.truthy_string u && negb (String.eqb mint u)
             | None => false
             end
          then false
          else if (balance <? amount)%float then false
          else true)
       balances).

(** [handleInsufficientBalance(amount, pr, wallet, debug, reject)] *)
Definition handleInsufficientBalance (amount : float) (pr : string)
    (w : NDKCashuWallet) (p : Js.Promise string)
  : NDKCashuWallet * Js.Promise string :=
  (mkWallet (mintBalances w) (emitted w ++ [InsufficientBalance amount pr]),
   Js.reject (Js.Reason "no mint with sufficient balance found") p).

Section Payment.

(** [executePayment(mint, pr, amount, wallet, payment, debug)] talks to the
    mint; what awaiting it gives is an input here: a preimage, [null] or
    [undefined] ([None]), or what it threw. *)
Variable executePayment : string -> string -> float -> Js.Settled (option string).

(** [attemptPaymentWithEligibleMints(...)]: the mints tried, in order, and
    the promise afterwards. The [catch] reads [error.message]: on [null]
    or [undefined] that read throws, the function ends there, and neither
    [resolve] nor [reject] has been called. *)
Fixpoint attemptPaymentWithEligibleMints (eligibleMints : list string)
    (pr : string) (amount : float) (tried : list string) (p : Js.Promise string)
  : list string * Js.Promise string :=
  match eligibleMints with
  | [] => (tried, Js.reject (Js.Reason "Failed to pay with any mint") p)
  | mint :: rest =>
      match executePayment mint pr amount with
      | Js.Ok result =>
          match Js.truthy result with
          | Some preimage => (tried ++ [mint], Js.resolve preimage p)
          | None =>
              attemptPaymentWithEligibleMints rest pr amount (tried ++ [mint]) p
          end
      | Js.Failed Js.Nullish => (tried ++ [mint], p)
      | Js.Failed _ =>
          attemptPaymentWithEligibleMints rest pr amount (tried ++ [mint]) p
      end
  end.

(** [async payLn(payment, useMint?)] *)
Definition payLn (this : NDKCashuPay) (useMint : option string) : Outcome :=
  let balances := mintBalances (wallet this) in
  let amount := (getAmount this / 1000)%float in
  match Js.truthy (pr this) with
  | None => mkOutcome (wallet this) [] (Js.Rejected (Js.Error "missing pr"))
  | Some data_pr =>
      let eligibleMints := getEligibleMints balances amount useMint in
      match eligibleMints with
      | [] =>
          let '(w, p) :=
            handleInsufficientBalance amount data_pr (wallet this) Js.Pending in
          mkOutcome w [] p
      | _ :: _ =>
          let '(tried, p) :=
            attemptPaymentWithEligibleMints eligibleMints data_pr amount []
                                            Js.Pending in
          mkOutcome (wallet this) tried p
      end
  end.

End Payment.

End Cashu.

(** ** The signer setter and the instances the operations reach *)

(** [set signer(newSigner)]. What it chains on [newSigner.user()] assigns
    [activeUser] in a later turn ([ActiveUser.set_activeUser] below). *)
Definition set_signer (this : NDK) (newSigner : option Signer.NDKSigner) : NDK :=
  let this :=
    mkNDK (explicitRelayUrls this) (pool this) (outboxPool this) newSigner
          (autoConnectUserRelays this) (autoFetchUserMutelist this)
          (clientName this) (clientNip89 this) (relayAuthDefaultPolicy this)
          (asyncSigVerification this) (validationRatio this)
          (subManager this) (outboxTracker this) (emitted this) in
  match newSigner with
  | Some signer => emit this (SignerReady signer)
  | None => this
  end.

(** The instances a program gets from the constructor through the
    operations modelled here. *)
Inductive reachable `{Collaborators} : NDK → Prop :=
| reach_new opts heap :
    reachable (new_NDK opts heap).1
| reach_set_signer this newSigner :
    reachable this → reachable (set_signer this newSigner)
| reach_addExplicitRelay this heap urlOrRelay policy connect :
    reachable this →
    reachable (addExplicitRelay this heap urlOrRelay policy connect).1.1
| reach_connect this timeoutMs poolConnect outboxConnect :
    reachable this →
    reachable (connect this timeoutMs poolConnect outboxConnect).1
| reach_subscribe this fs o rs autoStart :
    reachable this → reachable (subscribe this fs o rs autoStart).1
| reach_fetchEvent this idOrFilter o rs signals :
    reachable this → reachable (fetchEvent this idOrFilter o rs signals).1
| reach_fetchEvents this fs o rs signals :
    reachable this → reachable (fetchEvents this fs o rs signals).1
| reach_assertSigner this :
    reachable this → reachable (assertSigner this).1.

(** ** The active user *)

Module ActiveUser.

Record NDKUser : Type := mkUser {
  pubkey : string;
  npub : string
}.

(** The three closures the setter builds. *)
Inductive UserFunction : Type :=
| fetchBlockedRelays
| connectToUserRelays
| fetchUserMuteList.

#[global] Instance UserFunction_eq_dec : EqDecision UserFunction.
Proof. solve_decision. Defined.

(** The instance together with the fields the setter touches:
    [_activeUser]; [mutedIds], a [Map] whose keys and values are what
    [item[1]] and [item[0]] give ([None] for [undefined]); [running], the
    calls [fn(user)] made so far, oldest first; [onceConnect], the
    handlers registered with [pool.once("connect", ...)], each with the
    pool it waits on ([true] for the outbox pool) and the calls it will
    make. *)
Record State : Type := mkState {
  instance : NDK;
  _activeUser : option NDKUser;
  mutedIds : gmap (option string) (option string);
  running : list (UserFunction * NDKUser);
  onceConnect : list (bool * list (UserFunction * NDKUser))
}.

Section Setter.

(** [pool.connectedRelays.length], as it evaluates on a pool. *)
Variable connectedRelays_length : Pool.NDKPool → nat.

(** [const userFunctions = [fetchBlockedRelays]], then the two optional
    pushes. *)
Definition userFunctions (this : NDK) : list UserFunction :=
  [fetchBlockedRelays]
  ++ (if autoConnectUserRelays this then [connectToUserRelays] else [])
  ++ (if autoFetchUserMutelist this then [fetchUserMuteList] else []).

(** [set activeUser(user)] *)
Definition set_activeUser (st : State) (user : option NDKUser) : State :=
  let differentUser :=
    bool_decide (pubkey <$> _activeUser st ≠ pubkey <$> user) in
  match user with
  | Some u =>
      if differentUser then
        let this := instance st in
        let calls := map (λ fn, (fn, u)) (userFunctions this) in
        let p := default (pool this) (outboxPool this) in
        if (0 <? connectedRelays_length p)%nat then
          mkState this (Some u) (mutedIds st) (running st ++ calls)
                  (onceConnect st)
        else
          mkState this (Some u) (mutedIds st) (running st)
                  (onceConnect st
                   ++ [(bool_decide (is_Some (outboxPool this)), calls)])
      else
        mkState (instance st) (Some u) (mutedIds st) (running st)
                (onceConnect st)
  | None =>
      mkState (instance st) None ∅ (running st) (onceConnect st)
  end.

End Setter.

(** A pool emits "connect": the handlers waiting on it run, in the order
    they were registered, and are gone. *)
Definition onPoolConnect (outbox : bool) (st : State) : State :=
  mkState (instance st) (_activeUser st) (mutedIds st)
          (running st
           ++ concat (map snd (List.filter (λ h, Bool.eqb (fst h) outbox)
                                           (onceConnect st))))
          (List.filter (λ h, negb (Bool.eqb (fst h) outbox)) (onceConnect st)).

(** The end of [fetchUserMuteList]: [muteList] is what [fetchEvent] gave,
    as the [items] of [NDKList.from(muteList)] ([None] for no event);
    each item is a tag. *)
Definition fetchUserMuteList_done (muteList : option (list (list string)))
    (st : State) : State :=
  match muteList with
  | Some items =>
      mkState (instance st) (_activeUser st)
              (fold_left (λ m item, <[item !! 1 := item !! 0]> m)
                         items (mutedIds st))
              (running st) (onceConnect st)
  | None => st
  end.

End ActiveUser.

(** ** Paying at one mint *)

Module Mint.

Definition NDKTag : Type := list string.

Record Proof : Type := mkProof {
  amount : float;
  secret : string
}.

Inductive MeltQuoteState : Type := UNPAID | PENDING | PAID.

#[global] Instance MeltQuoteState_eq_dec : EqDecision MeltQuoteState.
Proof. solve_decision. Defined.

(** The melt quote, as [createMeltQuote] gives it and as it comes back in
    [meltResult.quote]. *)
Record MeltQuote : Type := mkQuote {
  quote_amount : float;
  fee_reserve : float;
  state : MeltQuoteState;
  payment_preimage : option string
}.

Record MeltResult : Type := mkMelt {
  quote : MeltQuote;
  change : list Proof;
  keep : list Proof
}.

(** The mint's wallet, as [executePayment] uses it. [selectProofsToSend]
    is called for what it may throw; its result is not used. *)
Record CashuWallet : Type := mkCashuWallet {
  createMeltQuote : string → Js.Settled MeltQuote;
  selectProofsToSend : list Proof → float → option Js.Thrown;
  meltProofs : MeltQuote → list Proof → Js.Settled MeltResult
}.

(** What [rollOverProofs] resolves with; tokens by their identity. *)
Record Rollover : Type := mkRollover {
  rolled_destroyedTokens : list string;
  rolled_createdToken : option string
}.

(** [payment.target]: an event, by its [tagReference()], a user, by the
    pubkey, or something else. *)
Inductive Target : Type :=
| TargetEvent (tagReference : NDKTag)
| TargetUser (pubkey : string)
| TargetOther.

Record NDKZapDetails : Type := mkPayment {
  target : option Target;
  recipientPubkey : option string;
  paymentDescription : option string
}.

(** The history event [executePayment] fills; [tags] are the tags it
    adds, in order. *)
Record NDKWalletChange : Type := mkChange {
  destroyedTokens : list string;
  createdTokens : list string;
  tags : list NDKTag;
  direction : string;
  description : option string;
  change_amount : float;
  fee : float
}.

(** What [executePayment] does to the outside. *)
Inductive Effect : Type :=
| MeltRequested (mint : string) (proofs : list Proof)
| RolledOver (mint : string) (usedProofs movedProofs : list Proof)
| Published (historyEvent : NDKWalletChange).

(** The wallet [executePayment] receives: the mint wallets, the proofs held
    at each mint, [rollOverProofs] on this wallet, and the reference tags
    of [wallet.event], if the wallet has one. *)
Record NDKCashuWallet : Type := mkWallet {
  walletForMint : string → Js.Settled (option CashuWallet);
  proofsForMint : string → list Proof;
  rollOverProofs : list Proof → list Proof → string → Js.Settled Rollover;
  event : option (list NDKTag)
}.

(** [calculateFee(sentAmount, proofs, change)] *)
Definition calculateFee (sentAmount : float) (proofs change : list Proof) : float :=
  let fee := (- sentAmount)%float in
  let fee := fold_left (λ fee p, (fee + amount p)%float) proofs fee in
  fold_left (λ fee p, (fee - amount p)%float) change fee.

(** The [catch (e)] of [executePayment]: an [Error] is thrown again,
    anything else becomes [null]. *)
Definition caught (e : Js.Thrown) : Js.Settled (option string) :=
  match e with
  | Js.Error _ => Js.Failed e
  | Js.Reason _ | Js.Nullish => Js.Ok None
  end.

(** The tag for [payment.target], if one is added. *)
Definition targetTag (payment : NDKZapDetails) : option NDKTag :=
  match target payment with
  | Some (TargetEvent tagReference) => Some tagReference
  | Some (TargetUser pk) =>
      match Js.truthy (recipientPubkey payment) with
      | None => Some ["p"; pk]
      | Some _ => None
      end
  | Some TargetOther => None
  | None => None
  end.

(** The history event of a paid melt. *)
Definition historyEvent (w : NDKCashuWallet) (payment : NDKZapDetails)
    (rolled : Rollover) (q : MeltQuote) (preimage : string) (fee : float)
  : NDKWalletChange :=
  mkChange
    (rolled_destroyedTokens rolled)
    (match rolled_createdToken rolled with Some t => [t] | None => [] end)
    (default [] (event w)
     ++ match targetTag payment with Some tag => [tag] | None => [] end
     ++ match Js.truthy (recipientPubkey payment) with
        | Some pk => [["p"; pk]]
        | None => []
        end
     ++ [["preimage"; preimage]])
    "out"
    (paymentDescription payment)
    (quote_amount q)
    fee.

(** [async executePayment(mint, pr, amount, wallet, payment, debug)]: what
    awaiting it gives, and what it has done. *)
Definition executePayment (w : NDKCashuWallet) (payment : NDKZapDetails)
    (mint pr : string) (amt : float)
  : Js.Settled (option string) * list Effect :=
  match walletForMint w mint with
  | Js.Failed e => (Js.Failed e, [])
  | Js.Ok None =>
      (Js.Failed (Js.Error ("unable to load wallet for mint " +:+ mint)), [])
  | Js.Ok (Some _wallet) =>
      let mintProofs := proofsForMint w mint in
      let amountAvailable :=
        fold_left (λ acc p, (acc + amount p)%float) mintProofs 0%float in
      if (amountAvailable <? amt)%float then (Js.Ok None, [])
      else
        match createMeltQuote _wallet pr with
        | Js.Failed e => (caught e, [])
        | Js.Ok meltQuote =>
            let amountToSend :=
              (quote_amount meltQuote + fee_reserve meltQuote)%float in
            match selectProofsToSend _wallet mintProofs amountToSend with
            | Some e => (caught e, [])
            | None =>
                match meltProofs _wallet meltQuote mintProofs with
                | Js.Failed e => (caught e, [MeltRequested mint mintProofs])
                | Js.Ok meltResult =>
                    let fee :=
                      calculateFee amt mintProofs (change meltResult) in
                    let q := quote meltResult in
                    match state q, Js.truthy (payment_preimage q) with
                    | PAID, Some preimage =>
                        let moved := keep meltResult ++ change meltResult in
                        match rollOverProofs w mintProofs moved mint with
                        | Js.Failed e =>
                            (caught e,
                             [MeltRequested mint mintProofs;
                              RolledOver mint mintProofs moved])
                        | Js.Ok rolled =>
                            (Js.Ok (Some preimage),
                             [MeltRequested mint mintProofs;
                              RolledOver mint mintProofs moved;
                              Published (historyEvent w payment rolled q
                                                      preimage fee)])
                        end
                    | _, _ =>
                        (Js.Ok (payment_preimage q),
                         [MeltRequested mint mintProofs])
                    end
                end
            end
        end
  end.

(** [payLn] with [executePayment] as above. *)
Definition payLn (w : NDKCashuWallet) (payment : NDKZapDetails)
    (this : Cashu.NDKCashuPay) (useMint : option string) : Cashu.Outcome :=
  Cashu.payLn (λ mint pr amt, (executePayment w payment mint pr amt).1)
              this useMint.

End Mint.

(** ** Inputs used in the examples below *)

Module Sample.

(** The one-character string holding a double quote. *)
Definition quote : string := String (Ascii.ascii_of_nat 34) EmptyString.

(** Collaborators for the examples: URLs already normalized, an empty
    identifier has no filter, no relay hints, newest-wins [dedupEvent]. *)
Definition collaborators : Collaborators := {|
  normalizeRelayUrl := fun u => u;
  filterFromId := fun s =>
    if String.eqb s "" then None else Some (mkFilter [s] [] [] None None None);
  isNip33AValue := fun _ => false;
  relaysFromBech32 := fun _ => [];
  correctRelaySet := fun rs _ => rs;
  JSON_stringify := fun x =>
    match x with
    | inl s => quote +:+ s +:+ quote
    | inr _ => "{}"
    end;
  dedupEvent := fun existing event =>
    if (created_at event <? created_at existing)%Z then existing else event
|}.

Definition ndk : NDK :=
  fst (@new_NDK collaborators Params.empty 0).

(** Two copies of a replaceable event (kind 10002) of one author, created
    at the same second. *)
Definition relayList_a : NDKEvent :=
  mkEvent "aa" "alice" 10002 100 true "10002:alice" false.

Definition relayList_b : NDKEvent :=
  mkEvent "bb" "alice" 10002 100 true "10002:alice" false.

(** A newer copy of the same replaceable event. *)
Definition relayList_c : NDKEvent :=
  mkEvent "cc" "alice" 10002 200 true "10002:alice" false.

(** A text note (kind 1), not replaceable. *)
Definition note : NDKEvent :=
  mkEvent "n1" "alice" 1 150 false "n1" false.

Definition filter_kind1 : NDKFilter :=
  mkFilter [] ["alice"] [1%Z] None None None.

Definition filter_relayList : NDKFilter :=
  mkFilter [] ["alice"] [10002%Z] None None None.

(** [new NDK({ validationRatio: 0 })] *)
Definition opts_ratio_zero : Params.NDKConstructorParams :=
  Params.mkParams None None None None None None None None None None None
                  (Some 0%float).

(** A wallet with 10 sats at one mint and 3 at another, asked to pay an
    invoice of 5000 millisatoshis. *)
Definition pay_5_sats : Cashu.NDKCashuPay :=
  Cashu.mkPay
    (Cashu.mkWallet [("https://mint.a", 10%float); ("https://mint.b", 3%float)] [])
    (Some "lnbc50n1invoice")
    5000%float.

(** The same wallet and invoice without the payment request. *)
Definition pay_without_pr : Cashu.NDKCashuPay :=
  Cashu.mkPay (Cashu.wallet pay_5_sats) None 5000%float.

(** A signer whose [relays()] rejects, and an instance using it. *)
Definition failing_signer : Signer.NDKSigner :=
  Signer.mkSigner "alice" (Some (Js.Failed (Js.Error "denied"))).

Definition ndk_with_failing_signer : NDK :=
  fst (@new_NDK collaborators
         (Params.mkParams None None None None None None (Some failing_signer)
                          None None None None None) 0).

(** A mint that would pay any invoice. *)
Definition paying_mint (mint pr : string) (amount : float)
  : Js.Settled (option string) :=
  Js.Ok (Some "preimage").

End Sample.

(** ** Inputs used in the examples of the further properties *)

Module Inputs.


(** An instance with the outbox model, after a subscription. *)
Definition opts_outbox : Params.NDKConstructorParams :=
  Params.mkParams None None None (Some true) None None None None None None None
                  None.

Definition ndk_outbox : NDK :=
  (@fetchEvents Sample.collaborators
     (connect (@new_NDK Sample.collaborators opts_outbox 0).1 None
              (Js.Ok tt) (Js.Failed (Js.Error "timeout"))).1
     [Sample.filter_kind1] None None [FetchEvents.Eose]).1.

Definition alice : ActiveUser.NDKUser := ActiveUser.mkUser "alice" "npub1alice".

Definition bob : ActiveUser.NDKUser := ActiveUser.mkUser "bob" "npub1bob".

(** No user set, nothing muted, nothing started. *)
Definition session : ActiveUser.State :=
  ActiveUser.mkState Sample.ndk None ∅ [] [].

(** A pool that reports no connected relay. *)
Definition none_connected (p : Pool.NDKPool) : nat := 0.

(** The wallet of a mint that quotes 5 sats with a reserve of 1 and melts
    to a paid quote, giving 2 sats of change. *)
Definition paying_wallet : Mint.CashuWallet :=
  Mint.mkCashuWallet
    (λ pr, Js.Ok (Mint.mkQuote 5%float 1%float Mint.UNPAID None))
    (λ proofs amountToSend, None)
    (λ q proofs,
       Js.Ok (Mint.mkMelt
                (Mint.mkQuote 5%float 1%float Mint.PAID (Some "preimage-5"))
                [Mint.mkProof 2%float "c1"] [])).

(** A wallet holding 8 + 2 sats at the first mint, whose mint wallet
    loads, and 3 sats at every other mint, whose mint wallet does not. *)
Definition wallet : Mint.NDKCashuWallet :=
  Mint.mkWallet
    (λ mint, if String.eqb mint "https://mint.a"
             then Js.Ok (Some paying_wallet) else Js.Ok None)
    (λ mint, if String.eqb mint "https://mint.a"
             then [Mint.mkProof 8%float "s1"; Mint.mkProof 2%float "s2"]
             else [Mint.mkProof 3%float "s3"])
    (λ usedProofs movedProofs mint, Js.Ok (Mint.mkRollover ["t1"] (Some "t2")))
    (Some [["a"; "37375:alice:wallet"]]).

(** A zap of a user, with a description. *)
Definition zap_bob : Mint.NDKZapDetails :=
  Mint.mkPayment (Some (Mint.TargetUser "bob")) None (Some "zap").

(** How three mints settle [executePayment]: the first resolves with
    [null], the second rejects with [undefined], any other would pay. *)
Definition null_then_undefined (mint pr : string) (amount : float)
  : Js.Settled (option string) :=
  if String.eqb mint "https://mint.a" then Js.Ok None
  else if String.eqb mint "https://mint.b" then Js.Failed Js.Nullish
  else Js.Ok (Some "preimage").


End Inputs.

(** ** Vocabulary of the statements *)

(** [e] is, in arrival order [es], the first event with the greatest
    creation timestamp. *)
Definition first_newest (e : NDKEvent) (es : list NDKEvent) : Prop :=
  ∃ l1 l2, es = l1 ++ e :: l2
    ∧ (∀ x, x ∈ l1 → (created_at x < created_at e)%Z)
    ∧ (∀ x, x ∈ l2 → (created_at x ≤ created_at e)%Z).

(** Signals of [fetchEvent] that end the wait: merged end-of-stream or the
    timeout. *)
Definition closes (sg : FetchEvent.Signal) : bool :=
  match sg with
  | FetchEvent.Eose | FetchEvent.Timeout => true
  | _ => false
  end.

Definition carries_event (sg : FetchEvent.Signal) : bool :=
  match sg with FetchEvent.Event _ => true | _ => false end.

(** The dedup keys a sequence of [fetchEvents] deliveries shows. *)
Definition observed_keys (deliveries : list FetchEvents.Signal) : gset string :=
  list_to_set (deduplicationKey <$> omap FetchEvents.delivered deliveries).

(** Every entry of the map sits under its own dedup key. *)
Definition keyed (m : gmap string NDKEvent) : Prop :=
  ∀ k e, m !! k = Some e → deduplicationKey e = k.

(** [this'] has the [validationRatio] of [this], and an outbox pool and an
    outbox tracker exactly when [this] has them. *)
Definition keeps_config (this this' : NDK) : Prop :=
  validationRatio this' = validationRatio this
  ∧ (is_Some (outboxPool this') ↔ is_Some (outboxPool this))
  ∧ (is_Some (outboxTracker this') ↔ is_Some (outboxTracker this)).

(** What a mint pays for an invoice: the non-empty preimage its
    [executePayment] resolves with, if it does. *)
Definition pays (executePayment : string → string → float → Js.Settled (option string))
    (pr : string) (amount : float) (mint : string) : option string :=
  match executePayment mint pr amount with
  | Js.Ok result => Js.truthy result
  | Js.Failed _ => None
  end.

(** * Properties *)

(** ** The callbacks of fetchEvent *)

Section FetchEventFacts.
Import FetchEvent.

Lemma fetchEvent_run_app a b st : run (a ++ b) st = run b (run a st).
Proof. apply fold_left_app. Qed.

Lemma first_newest_in e es : first_newest e es → e ∈ es.
Proof. intros (l1 & l2 & -> & _). set_solver. Qed.

Lemma first_newest_max e es x :
  first_newest e es → x ∈ es → (created_at x ≤ created_at e)%Z.
Proof.
  intros (l1 & l2 & -> & Hl1 & Hl2) Hx.
  apply elem_of_app in Hx as [Hx | Hx].
  - apply Hl1 in Hx. lia.
  - apply elem_of_cons in Hx as [-> | Hx]; [lia | by apply Hl2].
Qed.

(** Replaceable events only move the candidate. *)
Lemma run_replaceable es st :
  Forall (λ e, isReplaceable e = true) es →
  run (Event <$> es) st =
  mkState (fold_left keep es (fetchedEvent st)) (promise st)
          (t_live st) (t2_live st) (s_started st) (s_stops st).
Proof.
  intros Hes. revert st.
  induction Hes as [| e es He _ IH]; intros st.
  - by destruct st.
  - cbn [fmap list_fmap run fold_left step]. fold (run (Event <$> es)).
    rewrite IH. unfold onEvent, keep. cbn [isReplaceable set_ndk].
    rewrite He. cbn [negb].
    by destruct (supersedes _ _); destruct st.
Qed.

(** The candidate after a non-empty run is the first newest event. *)
Lemma keep_first_newest es :
  es ≠ [] →
  ∃ e, fold_left keep es None = Some (set_ndk e) ∧ first_newest e es.
Proof.
  induction es as [| x es IH] using rev_ind; [done |]. intros _.
  rewrite fold_left_app. cbn [fold_left].
  destruct es as [| y es'].
  - exists x. split; [done |]. exists [], []. set_solver.
  - destruct IH as (e & -> & l1 & l2 & Heq & Hl1 & Hl2); [done |].
    unfold keep, supersedes. cbn [created_at set_ndk].
    destruct (Z.ltb_spec (created_at e) (created_at x)).
    + exists x. split; [done |]. exists (y :: es'), []. split; [done |].
      split; [| set_solver]. intros z Hz. rewrite Heq in Hz.
      apply elem_of_app in Hz as [Hz | Hz].
      * apply Hl1 in Hz. lia.
      * apply elem_of_cons in Hz as [-> | Hz]; [lia |]. apply Hl2 in Hz. lia.
    + exists e. split; [done |]. exists l1, (l2 ++ [x]). split.
      * rewrite Heq. by rewrite <- app_assoc.
      * split; [done |]. intros z Hz.
        apply elem_of_app in Hz as [Hz | Hz]; [by apply Hl2 |].
        apply list_elem_of_singleton in Hz as ->. lia.
Qed.

(** Two first-newest events of permuted sequences carry the same
    timestamp. *)
Lemma first_newest_perm_created_at e e' es es' :
  es' ≡ₚ es → first_newest e es → first_newest e' es' →
  created_at e' = created_at e.
Proof.
  intros Hp He He'.
  assert (e ∈ es') by (rewrite Hp; by eapply first_newest_in).
  assert (e' ∈ es) by (rewrite <- Hp; by eapply first_newest_in).
  pose proof (first_newest_max _ _ _ He ltac:(eassumption)).
  pose proof (first_newest_max _ _ _ He' ltac:(eassumption)).
  lia.
Qed.

(** Once the timeout is cleared and the promise fulfilled, no signal changes
    the promise, re-arms the timeout or stops the subscription. *)
Lemma run_settled signals st v :
  t_live st = false → t2_live st = false → promise st = Js.Fulfilled v →
  t_live (run signals st) = false
  ∧ t2_live (run signals st) = false
  ∧ promise (run signals st) = Js.Fulfilled v
  ∧ s_stops (run signals st) = s_stops st.
Proof.
  revert st. induction signals as [| sg signals IH]; intros st Ht Ht2 Hp; [done |].
  change (run (sg :: signals) st) with (run signals (step st sg)).
  assert (Hstep : t_live (step st sg) = false
                  ∧ t2_live (step st sg) = false
                  ∧ promise (step st sg) = Js.Fulfilled v
                  ∧ s_stops (step st sg) = s_stops st).
  { destruct sg as [e | | |]; cbn [step].
    - unfold onEvent.
      destruct (negb _); [| destruct (supersedes _ _)];
        cbn; by rewrite ?Ht, ?Ht2, ?Hp.
    - unfold onEose. cbn. by rewrite Hp.
    - done.
    - unfold onTimeout. by rewrite Ht2. }
  destruct Hstep as (H0 & H1 & H2 & H3).
  destruct (IH _ H0 H1 H2) as (I0 & I1 & I2 & I3).
  rewrite <- H3. done.
Qed.

(** Without a matching event the promise stays pending, with the timeout
    armed, until end-of-stream or the timeout; from then on it is
    fulfilled with [null]. *)
Lemma run_no_event signals st :
  Forall (λ sg, carries_event sg = false) signals →
  fetchedEvent st = None → promise st = Js.Pending → t2_live st = true →
  if existsb closes signals
  then promise (run signals st) = Js.Fulfilled None
  else promise (run signals st) = Js.Pending ∧ t2_live (run signals st) = true.
Proof.
  intros Hall. revert st.
  induction Hall as [| sg signals Hsg _ IH]; intros st Hf Hp Ht2; [done |].
  change (run (sg :: signals) st) with (run signals (step st sg)).
  cbn [existsb].
  destruct sg as [e | | |]; cbn in Hsg; [done | | |]; cbn [closes orb step].
  - apply (run_settled signals (onEose st) None); [done | done |].
    unfold onEose. cbn. by rewrite Hp, Hf.
  - by apply IH.
  - apply (run_settled signals (onTimeout st) None);
      unfold onTimeout; rewrite Ht2; [done | done |].
    cbn. by rewrite Hp, Hf.
Qed.

End FetchEventFacts.

(** ** fetchEvent *)

Section FetchEventClaims.
Context `{Collaborators}.
Import FetchEvent.

(** With a filter, [fetchEvent] subscribes once and then runs its
    callbacks from the executor's state. *)
Lemma fetchEvent_with_filter this idOrFilter f o rs signals :
  fetchEvent_filter idOrFilter = Some f →
  fetchEvent this idOrFilter o rs signals =
  (fst (subscribe this [f] (withCloseOnEose o)
                  (fetchEvent_relaySet this idOrFilter rs) false),
   inr (run signals init)).
Proof.
  intros Hf. unfold fetchEvent. rewrite Hf.
  by destruct (subscribe _ _ _ _ _).
Qed.

(** A non-empty run of replaceable events followed by end-of-stream or the
    timeout resolves with the first newest event. *)
Lemma fetchEvent_replaceable_result this idOrFilter f o rs es closing :
  fetchEvent_filter idOrFilter = Some f →
  es ≠ [] →
  Forall (λ e, isReplaceable e = true) es →
  closes closing = true →
  ∃ e, first_newest e es
    ∧ fetchEvent_promise
        (fetchEvent this idOrFilter o rs ((Event <$> es) ++ [closing]))
      = Js.Fulfilled (Some (set_ndk e)).
Proof.
  intros Hf Hne Hrep Hclose.
  destruct (keep_first_newest es Hne) as (e & Hkeep & Hfirst).
  exists e. split; [done |].
  rewrite (fetchEvent_with_filter _ _ f) by done.
  unfold fetchEvent_promise. cbn [snd].
  rewrite fetchEvent_run_app, run_replaceable by done.
  cbn [init fetchedEvent promise]. rewrite Hkeep.
  by destruct closing.
Qed.

(** C1 (as the code has it): for every non-empty sequence of replaceable
    events delivered to [fetchEvent] and closed by end-of-stream or the
    timeout, the promise resolves with an event of the greatest creation
    timestamp, namely the first one delivered with that timestamp. Under
    every permutation of the arrival order the resolved event has the same
    timestamp, and it is the same event whenever no other delivered event
    shares that timestamp. *)
Theorem fetchEvent_replaceable_first_newest
    this idOrFilter f o rs (es : list NDKEvent) closing :
  fetchEvent_filter idOrFilter = Some f →
  es ≠ [] →
  Forall (λ e, isReplaceable e = true) es →
  closes closing = true →
  ∃ e, first_newest e es
    ∧ fetchEvent_promise
        (fetchEvent this idOrFilter o rs ((Event <$> es) ++ [closing]))
      = Js.Fulfilled (Some (set_ndk e))
    ∧ ∀ es', es' ≡ₚ es →
        ∃ e', fetchEvent_promise
                (fetchEvent this idOrFilter o rs ((Event <$> es') ++ [closing]))
              = Js.Fulfilled (Some (set_ndk e'))
          ∧ created_at e' = created_at e
          ∧ ((∀ x, x ∈ es → created_at x = created_at e → x = e) → e' = e).
Proof.
  intros Hf Hne Hrep Hclose.
  destruct (fetchEvent_replaceable_result this idOrFilter f o rs es closing)
    as (e & Hfirst & Hres); [done .. |].
  exists e. do 2 (split; [done |]).
  intros es' Hperm.
  destruct (fetchEvent_replaceable_result this idOrFilter f o rs es' closing)
    as (e' & Hfirst' & Hres'); [done | | | done |].
  - intros ->. apply Permutation_nil_l in Hperm. by subst.
  - by rewrite Hperm.
  - exists e'. split; [done |].
    assert (Hts : created_at e' = created_at e)
      by (by eapply first_newest_perm_created_at).
    split; [done |]. intros Huniq. apply Huniq; [| done].
    rewrite <- Hperm. by eapply first_newest_in.
Qed.


(** C4: with a filter and no matching event, the promise is never rejected;
    it is fulfilled with [null] as soon as end-of-stream or the timeout has
    occurred, and until then it is pending with the timeout still armed. *)
Theorem fetchEvent_no_match_resolves_null this idOrFilter f o rs signals :
  fetchEvent_filter idOrFilter = Some f →
  Forall (λ sg, carries_event sg = false) signals →
  ∃ this' st,
    fetchEvent this idOrFilter o rs signals = (this', inr st)
    ∧ if existsb closes signals
      then fetchEvent_promise (this', inr st) = Js.Fulfilled None
      else fetchEvent_promise (this', inr st) = Js.Pending ∧ t2_live st = true.
Proof.
  intros Hf Hnone.
  rewrite (fetchEvent_with_filter _ _ f) by done.
  eexists _, _. split; [done |].
  unfold fetchEvent_promise. cbn [snd].
  by apply run_no_event.
Qed.

(** C9: for an identifier with no filter, [fetchEvent] rejects with the
    "Invalid filter" error and leaves the instance, and so the registry of
    subscriptions, as it was. *)
Theorem fetchEvent_invalid_filter this idStr o rs signals :
  filterFromId idStr = None →
  fetchEvent_promise (fetchEvent this (inl idStr) o rs signals)
    = Js.Rejected (Js.Error ("Invalid filter: " +:+ JSON_stringify (inl idStr)))
  ∧ fst (fetchEvent this (inl idStr) o rs signals) = this
  ∧ subManager (fst (fetchEvent this (inl idStr) o rs signals)) = subManager this.
Proof.
  intros Hnone. unfold fetchEvent. cbn [fetchEvent_filter]. by rewrite Hnone.
Qed.

(** With a filter, on the other hand, exactly one subscription is
    registered. *)
Lemma fetchEvent_registers_subscription this idOrFilter f o rs signals :
  fetchEvent_filter idOrFilter = Some f →
  subManager (fst (fetchEvent this idOrFilter o rs signals)) =
  subManager this ++
    [mkSub [f] (withCloseOnEose o) (fetchEvent_relaySet this idOrFilter rs) false].
Proof.
  intros Hf. rewrite (fetchEvent_with_filter _ _ f) by done.
  unfold subscribe. cbn [fst].
  by repeat (match goal with |- context [match ?x with _ => _ end] => destruct x end).
Qed.

End FetchEventClaims.

(** ** fetchEvents *)

Section FetchEventsFacts.
Import FetchEvents.
Variable dedup : NDKEvent → NDKEvent → NDKEvent.
Hypothesis dedup_keeps_key : ∀ a b,
  deduplicationKey a = deduplicationKey b →
  deduplicationKey (dedup a b) = deduplicationKey b.

Lemma fetchEvents_run_app a b st :
  run dedup (a ++ b) st = run dedup b (run dedup a st).
Proof. apply fold_left_app. Qed.

Lemma onEvent_keyed e st :
  keyed (events st) → keyed (events (onEvent dedup e st)).
Proof.
  intros Hk k x. unfold onEvent. cbn [events].
  destruct (decide (deduplicationKey e = k)) as [<- | Hne].
  - rewrite lookup_insert_eq. intros [= <-]. cbn [deduplicationKey set_ndk].
    destruct (events st !! deduplicationKey e) as [existing |] eqn:Hex; [| done].
    apply dedup_keeps_key. by apply Hk.
  - rewrite lookup_insert_ne by done. apply Hk.
Qed.

Lemma onEvent_dom e st :
  dom (events (onEvent dedup e st)) = {[deduplicationKey e]} ∪ dom (events st).
Proof. unfold onEvent. cbn [events]. apply dom_insert_L. Qed.

(** Deliveries fill the map with one entry per dedup key seen and leave the
    promise alone. *)
Lemma run_deliveries deliveries st :
  Forall (λ sg, sg ≠ Eose) deliveries →
  keyed (events st) →
  keyed (events (run dedup deliveries st))
  ∧ dom (events (run dedup deliveries st))
    = observed_keys deliveries ∪ dom (events st)
  ∧ promise (run dedup deliveries st) = promise st.
Proof.
  intros Hall. revert st.
  induction Hall as [| sg deliveries Hsg _ IH]; intros st Hk.
  - split; [done |]. split; [| done]. unfold observed_keys. cbn.
    by rewrite (left_id_L ∅ (∪)).
  - change (run dedup (sg :: deliveries) st)
      with (run dedup deliveries (step dedup st sg)).
    assert (Hstep : ∃ e, delivered sg = Some e ∧ step dedup st sg = onEvent dedup e st).
    { destruct sg as [e | e |]; [by exists e | by exists e | done]. }
    destruct Hstep as (e & Hd & ->).
    destruct (IH (onEvent dedup e st)) as (I1 & I2 & I3);
      [by apply onEvent_keyed |].
    split; [done |]. split; [| done].
    rewrite I2, onEvent_dom. unfold observed_keys. cbn [omap list_omap].
    rewrite Hd. cbn [fmap list_fmap list_to_set].
    by rewrite (assoc_L (∪)), (comm_L (∪) (observed_keys deliveries)).
Qed.

(** A keyed map has as many values as entries. *)
Lemma size_map_img_keyed (m : gmap string NDKEvent) :
  keyed m → size (map_img m : gset NDKEvent) = size m.
Proof.
  induction m as [| k e m Hnone IH] using map_ind; intros Hk.
  - by rewrite map_img_empty_L, size_empty, map_size_empty.
  - rewrite map_img_insert_notin_L by done.
    rewrite size_union, size_singleton, map_size_insert_None by
      (try done; apply disjoint_singleton_l; intros (j & Hj)%elem_of_map_img;
       assert (deduplicationKey e = j)
         by (apply Hk; destruct (decide (k = j)) as [-> | ?];
             [congruence | by rewrite lookup_insert_ne]);
       assert (deduplicationKey e = k) by (apply Hk, lookup_insert_eq);
       congruence).
    rewrite IH; [done |]. intros j x Hj. apply Hk.
    rewrite lookup_insert_ne; [done |]. congruence.
Qed.

End FetchEventsFacts.

Section FetchEventsClaims.
Context `{Collaborators}.

(** C3: the set [fetchEvents] resolves with at end-of-stream has exactly
    one element per dedup key among the deliveries, however many
    deliveries shared a key; [dedupEvent] is only asked to answer, for two
    events of one key, with an event of that key. *)
Theorem fetchEvents_one_event_per_dedup_key this fs o rs deliveries :
  (∀ a b, deduplicationKey a = deduplicationKey b →
          deduplicationKey (dedupEvent a b) = deduplicationKey b) →
  Forall (λ sg, sg ≠ FetchEvents.Eose) deliveries →
  ∃ result : gset NDKEvent,
    FetchEvents.promise
      (snd (fetchEvents this fs o rs (deliveries ++ [FetchEvents.Eose])))
    = Js.Fulfilled result
    ∧ size result = size (observed_keys deliveries)
    ∧ (∀ e, e ∈ result → deduplicationKey e ∈ observed_keys deliveries)
    ∧ (∀ k, k ∈ observed_keys deliveries →
         ∃ e, e ∈ result ∧ deduplicationKey e = k
              ∧ ∀ e', e' ∈ result → deduplicationKey e' = k → e' = e).
Proof.
  intros Hdedup Hall.
  unfold fetchEvents. destruct (subscribe _ _ _ _ _) as [this' s]. cbn [snd].
  rewrite fetchEvents_run_app.
  destruct (run_deliveries dedupEvent Hdedup deliveries FetchEvents.init Hall)
    as (Hk & Hdom & Hp); [done |].
  set (st := FetchEvents.run dedupEvent deliveries FetchEvents.init) in *.
  exists (map_img (FetchEvents.events st)).
  assert (Hdom' : dom (FetchEvents.events st) = observed_keys deliveries)
    by (rewrite Hdom; cbn [FetchEvents.init FetchEvents.events];
        rewrite dom_empty_L; apply (right_id_L ∅ (∪))).
  split.
  { cbn. unfold FetchEvents.onEose. cbn. by rewrite Hp. }
  split.
  { rewrite (size_map_img_keyed _ Hk), <- Hdom'. symmetry. apply size_dom. }
  split.
  { intros e (k & Hke)%elem_of_map_img. rewrite <- Hdom'.
    rewrite (Hk _ _ Hke). apply elem_of_dom. by eexists. }
  intros k Hkin. rewrite <- Hdom' in Hkin.
  apply elem_of_dom in Hkin as [e He].
  exists e. split; [by apply elem_of_map_img; eexists |].
  split; [by apply Hk |].
  intros e' (k' & Hk')%elem_of_map_img Hkey.
  rewrite (Hk _ _ Hk') in Hkey. subst k'. congruence.
Qed.

End FetchEventsClaims.

(** ** The instance: constructor, relays, connection, signer *)

Section InstanceClaims.
Context `{Collaborators}.


(** What [addExplicitRelay] does, in one equation per effect. *)
Lemma addExplicitRelay_effects this heap urlOrRelay policy connect :
  let r := addExplicitRelay this heap urlOrRelay policy connect in
  r.2 = match urlOrRelay with
        | inl u => mkRelay heap (normalizeRelayUrl u) policy
        | inr relay => relay
        end
  ∧ r.1.2 = match urlOrRelay with inl _ => S heap | inr _ => heap end
  ∧ pool r.1.1 = (Pool.addRelay r.2 connect (pool this)).1
  ∧ explicitRelayUrls r.1.1 = explicitRelayUrls this ++ [url r.2].
Proof. by destruct urlOrRelay. Qed.

(** C6 (as the code has it): [addExplicitRelay] returns the relay object
    it was given or, for a URL, the object it has just built; it hands
    that object to the pool, where the URL afterwards maps to the relay
    the pool already had for it, if any, and to the new object otherwise;
    and it appends the URL to [explicitRelayUrls]. Two calls with one URL
    return two different objects with the same URL, and the pool keeps the
    relay it had after the first call. *)
Theorem addExplicitRelay_returns_its_own_relay
    this heap urlOrRelay u policy connect policy' connect' :
  let r := addExplicitRelay this heap urlOrRelay policy connect in
  let r1 := addExplicitRelay this heap (inl u) policy connect in
  let r2 := addExplicitRelay r1.1.1 r1.1.2 (inl u) policy' connect' in
  (r.2 = match urlOrRelay with
         | inl v => mkRelay heap (normalizeRelayUrl v) policy
         | inr relay => relay
         end
   ∧ Pool.relays (pool r.1.1) !! url r.2
     = Some (default r.2 (Pool.relays (pool this) !! url r.2))
   ∧ explicitRelayUrls r.1.1 = explicitRelayUrls this ++ [url r.2])
  ∧ (oid r1.2 ≠ oid r2.2
     ∧ url r1.2 = url r2.2
     ∧ Pool.relays (pool r2.1.1) !! url r2.2
       = Some (default r1.2 (Pool.relays (pool this) !! url r1.2))).
Proof.
  intros r r1 r2.
  destruct (addExplicitRelay_effects this heap urlOrRelay policy connect)
    as (E1 & _ & E3 & E4).
  destruct (addExplicitRelay_effects this heap (inl u) policy connect)
    as (F1 & F2 & F3 & _).
  destruct (addExplicitRelay_effects r1.1.1 r1.1.2 (inl u) policy' connect')
    as (G1 & _ & G3 & _).
  cbv zeta in *. fold r in E1, E3, E4. fold r1 in F1, F2, F3, G1, G3.
  fold r2 in G1, G3.
  split.
  - split; [done |]. split; [| done].
    rewrite E3. unfold Pool.addRelay. cbn [fst Pool.relays].
    apply lookup_insert_eq.
  - rewrite G1, F1, F2. cbn [oid url]. split; [lia |]. split; [done |].
    rewrite G3, G1. unfold Pool.addRelay at 1. cbn [fst Pool.relays url].
    rewrite lookup_insert_eq. f_equal.
    rewrite F3, F1. unfold Pool.addRelay. cbn [fst Pool.relays url].
    by rewrite lookup_insert_eq.
Qed.

(** What the constructor keeps as [validationRatio]. *)
Lemma constructor_validationRatio opts heap :
  validationRatio (new_NDK opts heap).1
  = Js.or_number (Params.validationRatio opts) 1%float.
Proof.
  unfold new_NDK.
  destruct (new_NDKPool _ _ _) as [p h].
  destruct (Params.enableOutboxModel opts) as [[|] |]; [| done | done].
  by destruct (new_NDKPool _ _ _).
Qed.

(** A ratio that is neither zero nor NaN is kept; without one the ratio
    is 1.0. *)
Lemma constructor_validationRatio_kept opts heap r :
  Params.validationRatio opts = Some r → Js.truthy_number r = true →
  validationRatio (new_NDK opts heap).1 = r.
Proof.
  intros Hr Ht. rewrite constructor_validationRatio, Hr. cbn. by rewrite Ht.
Qed.

Lemma constructor_validationRatio_default opts heap :
  Params.validationRatio opts = None →
  validationRatio (new_NDK opts heap).1 = 1%float.
Proof. intros Hr. by rewrite constructor_validationRatio, Hr. Qed.

(** C7 at [validationRatio: 0]: the constructor reads the options with
    [opts.validationRatio || 1.0], and [0] is falsy, so the instance gets
    1.0, which is not the ratio asked for. *)
Theorem constructor_validationRatio_zero opts heap :
  Params.validationRatio opts = Some 0%float →
  validationRatio (new_NDK opts heap).1 = 1%float
  ∧ validationRatio (new_NDK opts heap).1 ≠ 0%float.
Proof.
  intros Hr. rewrite constructor_validationRatio, Hr.
  split; [done |]. cbn. intros Heq.
  assert (E : PrimFloat.eqb 1%float 1%float = PrimFloat.eqb 0%float 1%float)
    by (by rewrite Heq).
  vm_compute in E. done.
Qed.

(** C8: [assertSigner] throws the "Signer required" error exactly when no
    signer is set; it then has emitted "signer:required", and nothing
    else has changed; with a signer it returns normally and leaves the
    instance, and so what it has emitted, untouched. *)
Theorem assertSigner_requires_signer this :
  ((assertSigner this).2 = Some (Js.Error "Signer required") ↔ _signer this = None)
  ∧ (_signer this = None →
       (assertSigner this).1 = emit this SignerRequired
       ∧ emitted (assertSigner this).1 = emitted this ++ [SignerRequired])
  ∧ (∀ signer, _signer this = Some signer → assertSigner this = (this, None)).
Proof.
  unfold assertSigner.
  destruct (_signer this) as [signer |]; cbn; naive_solver.
Qed.

End InstanceClaims.

(** ** payLn *)

Section PaymentClaims.
Import Cashu.
Variable executePayment : string → string → float → Js.Settled (option string).

(** No mint passes the filter when each one is either not the mint asked
    for or holds less than the amount. *)
Lemma getEligibleMints_none balances amount useMint :
  Forall (λ entry : string * float,
            (∃ u, useMint = Some u ∧ Js.truthy_string u = true ∧ entry.1 ≠ u)
            ∨ (entry.2 <? amount)%float = true) balances →
  getEligibleMints balances amount useMint = [].
Proof.
  unfold getEligibleMints.
  induction 1 as [| [mint balance] balances Hentry _ IH]; [done |].
  cbn [List.filter]. cbn [fst snd] in Hentry.
  match goal with
  | |- context [if ?test then (mint, balance) :: _ else _] =>
      assert (Htest : test = false); [| by rewrite Htest]
  end.
  destruct Hentry as [(u & -> & Hu & Hne) | Hlow].
  - apply String.eqb_neq in Hne. by rewrite Hu, Hne.
  - rewrite Hlow. by destruct (match useMint with Some _ => _ | None => _ end).
Qed.

(** C10: when the payment request is present and every mint is either not
    the one asked for or holds less than the amount, [payLn] emits
    "insufficient_balance" on the wallet with the amount (in sats) and the
    payment request, rejects with "no mint with sufficient balance found",
    and calls [executePayment] for no mint. *)
Theorem payLn_insufficient_balance this useMint data_pr :
  Js.truthy (pr this) = Some data_pr →
  Forall (λ entry : string * float,
            (∃ u, useMint = Some u ∧ Js.truthy_string u = true ∧ entry.1 ≠ u)
            ∨ (entry.2 <? getAmount this / 1000)%float = true)
         (mintBalances (wallet this)) →
  payLn executePayment this useMint =
  mkOutcome
    (mkWallet (mintBalances (wallet this))
              (emitted (wallet this)
               ++ [InsufficientBalance (getAmount this / 1000)%float data_pr]))
    []
    (Js.Rejected (Js.Reason "no mint with sufficient balance found")).
Proof.
  intros Hpr Hlow. unfold payLn. rewrite Hpr.
  by rewrite (getEligibleMints_none _ _ _ Hlow).
Qed.

End PaymentClaims.

(** ** The statements at concrete inputs *)

(** C1 at three copies of a relay list (created at 100, 200, 100) closed
    by the timeout. *)
Lemma fetchEvent_replaceable_first_newest_witness :
  ∃ e, first_newest e [Sample.relayList_a; Sample.relayList_c; Sample.relayList_b]
    ∧ fetchEvent_promise
        (@fetchEvent Sample.collaborators Sample.ndk
           (inr Sample.filter_relayList) None None
           ((FetchEvent.Event <$>
               [Sample.relayList_a; Sample.relayList_c; Sample.relayList_b])
            ++ [FetchEvent.Timeout]))
      = Js.Fulfilled (Some (set_ndk e))
    ∧ ∀ es', es' ≡ₚ [Sample.relayList_a; Sample.relayList_c; Sample.relayList_b] →
        ∃ e', fetchEvent_promise
                (@fetchEvent Sample.collaborators Sample.ndk
                   (inr Sample.filter_relayList) None None
                   ((FetchEvent.Event <$> es') ++ [FetchEvent.Timeout]))
              = Js.Fulfilled (Some (set_ndk e'))
          ∧ created_at e' = created_at e
          ∧ ((∀ x, x ∈ [Sample.relayList_a; Sample.relayList_c; Sample.relayList_b] →
                   created_at x = created_at e → x = e) → e' = e).
Proof.
  apply (@fetchEvent_replaceable_first_newest Sample.collaborators Sample.ndk
           (inr Sample.filter_relayList) Sample.filter_relayList None None
           [Sample.relayList_a; Sample.relayList_c; Sample.relayList_b]
           FetchEvent.Timeout).
  - reflexivity.
  - discriminate.
  - repeat constructor.
  - reflexivity.
Defined.

(** C1 as stated fails on a tie: of two copies created at the same second,
    [fetchEvent] returns the one that arrived first, in either order, and
    so not always the one with the greater identity. *)
Lemma fetchEvent_tie_keeps_first_arrival :
  let fetch := λ signals,
    fetchEvent_promise
      (@fetchEvent Sample.collaborators Sample.ndk
         (inr Sample.filter_relayList) None None signals) in
  (isReplaceable Sample.relayList_a = true
   ∧ isReplaceable Sample.relayList_b = true
   ∧ deduplicationKey Sample.relayList_a = deduplicationKey Sample.relayList_b
   ∧ created_at Sample.relayList_a = created_at Sample.relayList_b
   ∧ String.ltb (id Sample.relayList_a) (id Sample.relayList_b) = true)
  ∧ fetch [FetchEvent.Event Sample.relayList_a;
           FetchEvent.Event Sample.relayList_b; FetchEvent.Eose]
    = Js.Fulfilled (Some (set_ndk Sample.relayList_a))
  ∧ fetch [FetchEvent.Event Sample.relayList_b;
           FetchEvent.Event Sample.relayList_a; FetchEvent.Eose]
    = Js.Fulfilled (Some (set_ndk Sample.relayList_b))
  ∧ set_ndk Sample.relayList_a ≠ set_ndk Sample.relayList_b.
Proof. cbv zeta. repeat split; try reflexivity. discriminate. Qed.



(** C4 at an identifier with a filter, a progress tick, then the timeout
    and a late end-of-stream. *)
Lemma fetchEvent_no_match_resolves_null_witness :
  ∃ this' st,
    @fetchEvent Sample.collaborators Sample.ndk (inl "note1unknown") None None
      [FetchEvent.IntervalTick; FetchEvent.Timeout; FetchEvent.Eose]
    = (this', inr st)
    ∧ if existsb closes [FetchEvent.IntervalTick; FetchEvent.Timeout; FetchEvent.Eose]
      then fetchEvent_promise (this', inr st) = Js.Fulfilled None
      else fetchEvent_promise (this', inr st) = Js.Pending
           ∧ FetchEvent.t2_live st = true.
Proof.
  apply (@fetchEvent_no_match_resolves_null Sample.collaborators Sample.ndk
           (inl "note1unknown")
           (mkFilter ["note1unknown"] [] [] None None None) None None
           [FetchEvent.IntervalTick; FetchEvent.Timeout; FetchEvent.Eose]).
  - reflexivity.
  - repeat constructor.
Defined.

(** C9 at the empty identifier. *)
Lemma fetchEvent_invalid_filter_witness :
  fetchEvent_promise
    (@fetchEvent Sample.collaborators Sample.ndk (inl "") None None [FetchEvent.Eose])
    = Js.Rejected
        (Js.Error ("Invalid filter: " +:+ @JSON_stringify Sample.collaborators (inl "")))
  ∧ (@fetchEvent Sample.collaborators Sample.ndk (inl "") None None [FetchEvent.Eose]).1
    = Sample.ndk
  ∧ subManager
      (@fetchEvent Sample.collaborators Sample.ndk (inl "") None None [FetchEvent.Eose]).1
    = subManager Sample.ndk.
Proof.
  apply (@fetchEvent_invalid_filter Sample.collaborators Sample.ndk
           "" None None [FetchEvent.Eose]).
  reflexivity.
Defined.

(** C3 at four deliveries showing two dedup keys. *)
Lemma fetchEvents_one_event_per_dedup_key_witness :
  ∃ result : gset NDKEvent,
    FetchEvents.promise
      (@fetchEvents Sample.collaborators Sample.ndk [Sample.filter_kind1] None None
         ([FetchEvents.Event Sample.relayList_a; FetchEvents.EventDup Sample.relayList_b;
           FetchEvents.Event Sample.note; FetchEvents.Event Sample.relayList_c]
          ++ [FetchEvents.Eose])).2
    = Js.Fulfilled result
    ∧ size result
      = size (observed_keys
                [FetchEvents.Event Sample.relayList_a;
                 FetchEvents.EventDup Sample.relayList_b;
                 FetchEvents.Event Sample.note; FetchEvents.Event Sample.relayList_c])
    ∧ (∀ e, e ∈ result →
         deduplicationKey e
         ∈ observed_keys
             [FetchEvents.Event Sample.relayList_a;
              FetchEvents.EventDup Sample.relayList_b;
              FetchEvents.Event Sample.note; FetchEvents.Event Sample.relayList_c])
    ∧ (∀ k, k ∈ observed_keys
                  [FetchEvents.Event Sample.relayList_a;
                   FetchEvents.EventDup Sample.relayList_b;
                   FetchEvents.Event Sample.note; FetchEvents.Event Sample.relayList_c] →
         ∃ e, e ∈ result ∧ deduplicationKey e = k
              ∧ ∀ e', e' ∈ result → deduplicationKey e' = k → e' = e).
Proof.
  apply (@fetchEvents_one_event_per_dedup_key Sample.collaborators Sample.ndk
           [Sample.filter_kind1] None None
           [FetchEvents.Event Sample.relayList_a; FetchEvents.EventDup Sample.relayList_b;
            FetchEvents.Event Sample.note; FetchEvents.Event Sample.relayList_c]).
  - intros a b Hkey. cbn.
    destruct (created_at b <? created_at a)%Z; [exact Hkey | reflexivity].
  - repeat constructor; discriminate.
Defined.


(** C6 as stated fails: two calls with one URL return two different relay
    objects, and the second is not the one the pool holds for that URL. *)
Lemma addExplicitRelay_same_url_two_objects :
  let r1 := @addExplicitRelay Sample.collaborators Sample.ndk 0
              (inl "wss://relay.example/") None true in
  let r2 := @addExplicitRelay Sample.collaborators r1.1.1 r1.1.2
              (inl "wss://relay.example/") None true in
  r1.2 = mkRelay 0 "wss://relay.example/" None
  ∧ r2.2 = mkRelay 1 "wss://relay.example/" None
  ∧ r1.2 ≠ r2.2
  ∧ Pool.relays (pool r2.1.1) !! "wss://relay.example/" = Some r1.2
  ∧ Pool.relays (pool r2.1.1) !! "wss://relay.example/" ≠ Some r2.2.
Proof.
  cbv zeta. split; [reflexivity |]. split; [reflexivity |].
  split; [discriminate |].
  assert (Hpool :
    Pool.relays
      (pool (@addExplicitRelay Sample.collaborators
               (@addExplicitRelay Sample.collaborators Sample.ndk 0
                  (inl "wss://relay.example/") None true).1.1
               (@addExplicitRelay Sample.collaborators Sample.ndk 0
                  (inl "wss://relay.example/") None true).1.2
               (inl "wss://relay.example/") None true).1.1)
      !! "wss://relay.example/"
    = Some (mkRelay 0 "wss://relay.example/" None)) by (vm_compute; reflexivity).
  split; [exact Hpool |]. rewrite Hpool. discriminate.
Qed.

(** C7 at [new NDK({ validationRatio: 0 })]. *)
Lemma constructor_validationRatio_zero_witness :
  validationRatio (@new_NDK Sample.collaborators Sample.opts_ratio_zero 0).1 = 1%float
  ∧ validationRatio (@new_NDK Sample.collaborators Sample.opts_ratio_zero 0).1 ≠ 0%float.
Proof.
  apply (@constructor_validationRatio_zero Sample.collaborators
           Sample.opts_ratio_zero 0).
  reflexivity.
Defined.

(** C10 at a wallet whose mints hold 10 and 3 sats, an invoice of 5 sats
    and the second mint asked for. *)
Lemma payLn_insufficient_balance_witness :
  Cashu.payLn Sample.paying_mint Sample.pay_5_sats (Some "https://mint.b") =
  Cashu.mkOutcome
    (Cashu.mkWallet
       (Cashu.mintBalances (Cashu.wallet Sample.pay_5_sats))
       (Cashu.emitted (Cashu.wallet Sample.pay_5_sats)
        ++ [Cashu.InsufficientBalance
              (Cashu.getAmount Sample.pay_5_sats / 1000)%float "lnbc50n1invoice"]))
    []
    (Js.Rejected (Js.Reason "no mint with sufficient balance found")).
Proof.
  apply (payLn_insufficient_balance Sample.paying_mint Sample.pay_5_sats
           (Some "https://mint.b") "lnbc50n1invoice").
  - reflexivity.
  - constructor.
    + left. exists "https://mint.b". split; [reflexivity |].
      split; [reflexivity | discriminate].
    + constructor; [right; reflexivity | constructor].
Defined.

(** ** Further runs of the model *)

(** The newest of three copies wins, wherever it arrives. *)
Example fetchEvent_newest_in_the_middle :
  fetchEvent_promise
    (@fetchEvent Sample.collaborators Sample.ndk (inr Sample.filter_relayList)
       None None
       [FetchEvent.Event Sample.relayList_a; FetchEvent.Event Sample.relayList_c;
        FetchEvent.Event Sample.relayList_b; FetchEvent.Eose])
  = Js.Fulfilled (Some (set_ndk Sample.relayList_c)).
Proof. reflexivity. Qed.

(** Only the timeout makes [fetchEvent] stop the subscription. *)
Example fetchEvent_timeout_stops_subscription :
  (@fetchEvent Sample.collaborators Sample.ndk (inr Sample.filter_relayList)
     None None [FetchEvent.Event Sample.relayList_a; FetchEvent.Timeout]).2
  = inr (FetchEvent.mkState (Some (set_ndk Sample.relayList_a))
           (Js.Fulfilled (Some (set_ndk Sample.relayList_a))) false false true 1).
Proof. reflexivity. Qed.

(** A ratio of one half is kept by the constructor. *)
Example constructor_keeps_half :
  validationRatio
    (@new_NDK Sample.collaborators
       (Params.mkParams None None None None None None None None None None None
                        (Some 0.5%float)) 0).1
  = 0.5%float.
Proof. reflexivity. Qed.

(** Both pools failing to connect leaves [connect] fulfilled. *)
Example connect_with_failing_pools :
  (connect Sample.ndk (Some 2000%Z)
     (Js.Failed (Js.Error "timeout")) (Js.Failed (Js.Error "timeout"))).2
  = Js.Ok tt.
Proof. reflexivity. Qed.

(** A rejection of the signer's [relays()] is the one thing [connect]
    passes on. *)
Example connect_with_failing_signer :
  (connect Sample.ndk_with_failing_signer None
     (Js.Ok tt) (Js.Ok tt)).2
  = Js.Failed (Js.Error "denied").
Proof. reflexivity. Qed.

(** Without a signer [assertSigner] emits and throws. *)
Example assertSigner_without_signer :
  emitted (assertSigner Sample.ndk).1 = [SignerRequired]
  ∧ (assertSigner Sample.ndk).2 = Some (Js.Error "Signer required").
Proof. split; reflexivity. Qed.

(** With enough balance at the first mint the payment is attempted there
    and nothing is emitted. *)
Example payLn_pays_with_first_mint :
  Cashu.payLn Sample.paying_mint Sample.pay_5_sats None
  = Cashu.mkOutcome (Cashu.wallet Sample.pay_5_sats) ["https://mint.a"]
                    (Js.Fulfilled "preimage").
Proof. reflexivity. Qed.

(** Without a payment request [payLn] rejects before looking at the
    mints. *)
Example payLn_missing_pr :
  Cashu.payLn Sample.paying_mint Sample.pay_without_pr (Some "https://mint.b")
  = Cashu.mkOutcome (Cashu.wallet Sample.pay_without_pr) []
                    (Js.Rejected (Js.Error "missing pr")).
Proof. reflexivity. Qed.

(** * Further properties of the code *)

(** ** The closure of fetchEvent, over every sequence of signals *)

Section FetchEventInvariants.
Import FetchEvent.

(** One signal takes a waiting closure to a waiting one or to a settled
    one with the timers cleared. *)
Lemma step_from_waiting st sg :
  promise st = Js.Pending → t_live st = true → t2_live st = true →
  s_stops st = 0 →
  (promise (step st sg) = Js.Pending ∧ t_live (step st sg) = true
   ∧ t2_live (step st sg) = true ∧ s_stops (step st sg) = 0)
  ∨ (∃ v, promise (step st sg) = Js.Fulfilled v ∧ t_live (step st sg) = false
          ∧ t2_live (step st sg) = false
          ∧ s_stops (step st sg) = (if sg is Timeout then 1 else 0)).
Proof.
  intros Hp Ht Ht2 Hs. destruct sg as [e | | |]; cbn [step].
  - unfold onEvent. destruct (negb _).
    + right. eexists. cbn. by rewrite Hp.
    + left. by destruct (supersedes _ _).
  - right. eexists. unfold onEose. cbn. by rewrite Hp.
  - by left.
  - right. eexists. unfold onTimeout. rewrite Ht2. cbn. by rewrite Hp, Hs.
Qed.

(** From a waiting closure every run ends waiting or settled. *)
Lemma run_waiting_or_settled signals st :
  promise st = Js.Pending → t_live st = true → t2_live st = true →
  s_stops st = 0 →
  (promise (run signals st) = Js.Pending
   ∧ t_live (run signals st) = true ∧ t2_live (run signals st) = true
   ∧ s_stops (run signals st) = 0)
  ∨ (∃ v, promise (run signals st) = Js.Fulfilled v
          ∧ t_live (run signals st) = false
          ∧ t2_live (run signals st) = false
          ∧ s_stops (run signals st) ≤ 1).
Proof.
  revert st. induction signals as [| sg signals IH]; intros st Hp Ht Ht2 Hs.
  - by left.
  - change (run (sg :: signals) st) with (run signals (step st sg)).
    destruct (step_from_waiting st sg Hp Ht Ht2 Hs)
      as [(W1 & W2 & W3 & W4) | (v & S1 & S2 & S3 & S4)].
    + by apply IH.
    + right. exists v.
      destruct (run_settled signals _ v S2 S3 S1) as (R0 & R1 & R2 & R3).
      rewrite R3, S4. repeat split; try done. destruct sg; lia.
Qed.

(** A settled closure reached from [init] has its timers cleared. *)
Lemma settled_timers_cleared signals v :
  promise (run signals init) = Js.Fulfilled v →
  t_live (run signals init) = false ∧ t2_live (run signals init) = false.
Proof.
  intros Hv.
  destruct (run_waiting_or_settled signals init eq_refl eq_refl eq_refl eq_refl)
    as [(Hp & _) | (w & _ & H1 & H2 & _)]; [congruence | done].
Qed.

(** A pending closure reached from [init] is still waiting. *)
Lemma pending_still_waiting signals :
  promise (run signals init) = Js.Pending →
  t_live (run signals init) = true ∧ t2_live (run signals init) = true
  ∧ s_stops (run signals init) = 0.
Proof.
  intros Hp.
  destruct (run_waiting_or_settled signals init eq_refl eq_refl eq_refl eq_refl)
    as [(_ & H1 & H2 & H3) | (w & Hw & _)]; [done | congruence].
Qed.

(** X1: whatever signals arrive, the promise of [fetchEvent] is never
    rejected, and the interval and the timeout are live exactly while it is
    pending; [s.stop()] has been called at most once, and never while the
    promise is pending. *)
Theorem fetchEvent_timers_live_while_pending signals :
  (promise (run signals init) = Js.Pending
   ∧ t_live (run signals init) = true ∧ t2_live (run signals init) = true
   ∧ s_stops (run signals init) = 0)
  ∨ (∃ v, promise (run signals init) = Js.Fulfilled v
          ∧ t_live (run signals init) = false
          ∧ t2_live (run signals init) = false
          ∧ s_stops (run signals init) ≤ 1).
Proof. by apply run_waiting_or_settled. Qed.

(** X2: once the promise is fulfilled, nothing that arrives later changes
    its value or makes [fetchEvent] stop the subscription: late data is
    dropped. *)
Theorem fetchEvent_settles_once before later v :
  promise (run before init) = Js.Fulfilled v →
  promise (run (before ++ later) init) = Js.Fulfilled v
  ∧ s_stops (run (before ++ later) init) = s_stops (run before init).
Proof.
  intros Hv. rewrite fetchEvent_run_app.
  destruct (settled_timers_cleared before v Hv) as [Ht Ht2].
  by destruct (run_settled later _ v Ht Ht2 Hv) as (_ & _ & ? & ?).
Qed.

(** X3: [fetchEvent] stops the subscription exactly when the timeout
    fires while the promise is still pending; a resolution by an event or
    by end-of-stream never stops it. *)
Theorem fetchEvent_stops_only_on_timeout signals :
  s_stops (run signals init) = 1
  ↔ ∃ before later, signals = before ++ Timeout :: later
                    ∧ promise (run before init) = Js.Pending.
Proof.
  assert (Hgen : ∀ st,
    promise st = Js.Pending → t_live st = true → t2_live st = true →
    s_stops st = 0 →
    s_stops (run signals st) = 1
    ↔ ∃ before later, signals = before ++ Timeout :: later
                      ∧ promise (run before st) = Js.Pending).
  { induction signals as [| sg signals IH]; intros st Hp Ht Ht2 Hs.
    - split; [cbn; lia |]. intros (before & later & Heq & _).
      by destruct before.
    - change (run (sg :: signals) st) with (run signals (step st sg)).
      destruct (step_from_waiting st sg Hp Ht Ht2 Hs)
        as [(W1 & W2 & W3 & W4) | (v & S1 & S2 & S3 & S4)].
      + rewrite (IH _ W1 W2 W3 W4). split.
        * intros (before & later & -> & Hb). by exists (sg :: before), later.
        * intros (before & later & Heq & Hb).
          destruct before as [| sg' before]; simplify_eq/=.
          -- unfold onTimeout in W1. rewrite Ht2 in W1. cbn in W1.
             rewrite Hp in W1. done.
          -- by exists before, later.
      + destruct (run_settled signals _ v S2 S3 S1) as (_ & _ & R2 & R3).
        rewrite R3, S4. split.
        * destruct sg; try done. intros _. by exists [], signals.
        * intros (before & later & Heq & Hb).
          destruct before as [| sg' before]; simplify_eq/=; [done |].
          change (fold_left step before (step st sg'))
            with (run before (step st sg')) in Hb.
          destruct (run_settled before _ v S2 S3 S1) as (_ & _ & Q & _).
          congruence. }
  by apply Hgen.
Qed.

(** X4: while the promise is pending, the first event of a kind that is
    not replaceable settles it with that event, whatever candidates of
    replaceable kinds were kept before and whatever arrives later. *)
Theorem fetchEvent_non_replaceable_wins before e later :
  promise (run before init) = Js.Pending →
  isReplaceable e = false →
  promise (run (before ++ Event e :: later) init) = Js.Fulfilled (Some (set_ndk e)).
Proof.
  intros Hp He. rewrite fetchEvent_run_app.
  change (run (Event e :: later) (run before init))
    with (run later (onEvent e (run before init))).
  assert (Hstep : promise (onEvent e (run before init))
                  = Js.Fulfilled (Some (set_ndk e))
                  ∧ t_live (onEvent e (run before init)) = false
                  ∧ t2_live (onEvent e (run before init)) = false).
  { unfold onEvent. cbn [isReplaceable set_ndk]. rewrite He. cbn.
    by rewrite Hp. }
  destruct Hstep as (S1 & S2 & S3).
  by destruct (run_settled later _ _ S2 S3 S1) as (_ & _ & ? & _).
Qed.

(** A promise found fulfilled after [resolve] was pending and took the
    value, or was fulfilled before. *)
Lemma resolve_fulfilled_inv {A} (v w : A) (p : Js.Promise A) :
  Js.resolve v p = Js.Fulfilled w →
  (p = Js.Pending ∧ w = v) ∨ p = Js.Fulfilled w.
Proof. destruct p; cbn; intros; simplify_eq; auto. Qed.

(** What the closure holds comes from the signals. *)
Lemma run_holds_delivered signals :
  (∀ x, fetchedEvent (run signals init) = Some x →
        ∃ e, Event e ∈ signals ∧ x = set_ndk e)
  ∧ (∀ x, promise (run signals init) = Js.Fulfilled (Some x) →
          ∃ e, Event e ∈ signals ∧ x = set_ndk e).
Proof.
  induction signals as [| sg signals [IHf IHp]] using rev_ind; [done |].
  rewrite fetchEvent_run_app.
  change (run [sg] (run signals init)) with (step (run signals init) sg).
  assert (Hmono : ∀ x, (∃ e, Event e ∈ signals ∧ x = set_ndk e) →
                       ∃ e, Event e ∈ signals ++ [sg] ∧ x = set_ndk e).
  { intros x (e & Hin & ->). exists e. split; [| done].
    apply elem_of_app. by left. }
  assert (Hlast : ∀ e, sg = Event e → Event e ∈ signals ++ [sg]).
  { intros e ->. apply elem_of_app. right. by apply list_elem_of_singleton. }
  set (st := run signals init) in *.
  assert (Hclose : ∀ x, Js.resolve (fetchedEvent st) (promise st)
                        = Js.Fulfilled (Some x) →
                        ∃ e, Event e ∈ signals ++ [sg] ∧ x = set_ndk e).
  { intros x [[_ Hx] | Hx]%resolve_fulfilled_inv; apply Hmono; auto. }
  destruct sg as [e | | |]; cbn [step].
  - unfold onEvent. destruct (negb _); [| destruct (supersedes _ _)];
      cbn [fetchedEvent promise]; split; intros x Hx.
    + by apply Hmono, IHf.
    + apply resolve_fulfilled_inv in Hx as [[_ Hx] | Hx].
      * simplify_eq. exists e. split; [by apply Hlast | done].
      * by apply Hmono, IHp.
    + simplify_eq. exists e. split; [by apply Hlast | done].
    + by apply Hmono, IHp.
    + by apply Hmono, IHf.
    + by apply Hmono, IHp.
  - unfold onEose; cbn [fetchedEvent promise]; split; intros x Hx.
    + by apply Hmono, IHf.
    + by apply Hclose.
  - split; intros x Hx; [by apply Hmono, IHf | by apply Hmono, IHp].
  - unfold onTimeout. destruct (t2_live _); cbn [fetchedEvent promise];
      split; intros x Hx.
    + by apply Hmono, IHf.
    + by apply Hclose.
    + by apply Hmono, IHf.
    + by apply Hmono, IHp.
Qed.

(** X5: what [fetchEvent] resolves with is [null] or one of the events
    that were delivered, bound to the instance; it resolves with nothing
    else. *)
Theorem fetchEvent_resolves_with_delivered signals x :
  promise (run signals init) = Js.Fulfilled (Some x) →
  ndk x = true ∧ ∃ e, Event e ∈ signals ∧ x = set_ndk e.
Proof.
  intros Hx. destruct (run_holds_delivered signals) as [_ Hp].
  destruct (Hp x Hx) as (e & Hin & ->). split; [done |]. by exists e.
Qed.

End FetchEventInvariants.

(** ** The closure of fetchEvents, over every sequence of signals *)

Section FetchEventsInvariants.
Import FetchEvents.
Variable dedup : NDKEvent → NDKEvent → NDKEvent.

(** Deliveries never touch the promise. *)
Lemma run_deliveries_promise deliveries st :
  Forall (λ sg, sg ≠ Eose) deliveries →
  promise (run dedup deliveries st) = promise st.
Proof.
  intros Hall. revert st.
  induction Hall as [| sg deliveries Hsg _ IH]; intros st; [done |].
  change (run dedup (sg :: deliveries) st)
    with (run dedup deliveries (step dedup st sg)).
  rewrite IH. by destruct sg.
Qed.

(** A promise that is not pending stays as it is. *)
Lemma run_keeps_settled signals st :
  promise st ≠ Js.Pending → promise (run dedup signals st) = promise st.
Proof.
  revert st. induction signals as [| sg signals IH]; intros st Hp; [done |].
  change (run dedup (sg :: signals) st)
    with (run dedup signals (step dedup st sg)).
  assert (Hstep : promise (step dedup st sg) = promise st).
  { destruct sg; cbn; try done. by destruct (promise st). }
  rewrite IH; [done |]. by rewrite Hstep.
Qed.

(** X6: without end-of-stream the promise of [fetchEvents] stays pending,
    however many events are delivered: unlike [fetchEvent] it has no
    timeout of its own. *)
Theorem fetchEvents_pending_without_eose deliveries :
  Forall (λ sg, sg ≠ Eose) deliveries →
  promise (run dedup deliveries init) = Js.Pending.
Proof. intros Hall. by rewrite run_deliveries_promise. Qed.

(** X7: at the first end-of-stream [fetchEvents] is fulfilled with the set
    of the values the map holds then, the events gathered until that
    moment; deliveries and end-of-streams that come later change neither
    the fulfilment nor the set. *)
Theorem fetchEvents_resolves_at_first_eose before later :
  Forall (λ sg, sg ≠ Eose) before →
  promise (run dedup (before ++ Eose :: later) init)
  = Js.Fulfilled (map_img (events (run dedup before init))).
Proof.
  intros Hbefore. rewrite fetchEvents_run_app.
  change (run dedup (Eose :: later) (run dedup before init))
    with (run dedup later (onEose (run dedup before init))).
  assert (Hresolved :
    promise (onEose (run dedup before init))
    = Js.Fulfilled (map_img (events (run dedup before init)))).
  { unfold onEose. cbn [promise events].
    by rewrite (run_deliveries_promise before init Hbefore). }
  rewrite run_keeps_settled; [done |]. by rewrite Hresolved.
Qed.

(** Every entry of the map, and every element of the resolved set, is a
    delivered event bound to the instance, when [dedup] answers with one of
    its arguments. *)
Lemma run_holds_deliveries signals :
  (∀ a b, dedup a b = a ∨ dedup a b = b) →
  (∀ k x, events (run dedup signals init) !! k = Some x →
          ∃ e, Some e ∈ delivered <$> signals ∧ x = set_ndk e)
  ∧ (∀ result x, promise (run dedup signals init) = Js.Fulfilled result →
                 x ∈ result →
                 ∃ e, Some e ∈ delivered <$> signals ∧ x = set_ndk e).
Proof.
  intros Hdedup.
  induction signals as [| sg signals [IHm IHp]] using rev_ind; [done |].
  rewrite fetchEvents_run_app.
  change (run dedup [sg] (run dedup signals init))
    with (step dedup (run dedup signals init) sg).
  set (st := run dedup signals init) in *.
  assert (Hmono : ∀ x, (∃ e, Some e ∈ delivered <$> signals ∧ x = set_ndk e) →
                       ∃ e, Some e ∈ delivered <$> (signals ++ [sg])
                            ∧ x = set_ndk e).
  { intros x (e & Hin & ->). exists e. split; [| done].
    rewrite fmap_app. apply elem_of_app. by left. }
  assert (Hlast : ∀ e, delivered sg = Some e →
                       Some e ∈ delivered <$> (signals ++ [sg])).
  { intros e He. rewrite fmap_app. apply elem_of_app. right. cbn.
    rewrite He. by apply list_elem_of_singleton. }
  assert (Hevent : ∀ e, delivered sg = Some e →
    ∀ k x, events (onEvent dedup e st) !! k = Some x →
           ∃ e', Some e' ∈ delivered <$> (signals ++ [sg]) ∧ x = set_ndk e').
  { intros e He k x. unfold onEvent. cbn [events].
    destruct (decide (deduplicationKey e = k)) as [<- | Hne].
    - rewrite lookup_insert_eq. intros [= <-].
      destruct (events st !! deduplicationKey e) as [existing |] eqn:Hex.
      + destruct (Hdedup existing e) as [-> | ->].
        * destruct (IHm _ _ Hex) as (e0 & Hin & ->).
          apply Hmono. by exists e0.
        * exists e. by split; [apply Hlast |].
      + exists e. by split; [apply Hlast |].
    - rewrite lookup_insert_ne by done. intros Hx. by apply Hmono, (IHm k). }
  destruct sg as [e | e |]; cbn [step].
  - split; [by apply Hevent |]. intros result x Hr Hx.
    by apply Hmono, (IHp result).
  - split; [by apply Hevent |]. intros result x Hr Hx.
    by apply Hmono, (IHp result).
  - split; [intros k x Hx; by apply Hmono, (IHm k) |].
    intros result x Hr Hx. unfold onEose in Hr. cbn in Hr.
    apply resolve_fulfilled_inv in Hr as [[_ ->] | Hr].
    + apply elem_of_map_img in Hx as [k Hk]. by apply Hmono, (IHm k).
    + by apply Hmono, (IHp result).
Qed.

(** X8: every event in the set [fetchEvents] resolves with is bound to the
    instance and, when [dedupEvent] answers with one of its two arguments,
    is one of the delivered events. *)
Theorem fetchEvents_resolves_with_delivered signals result x :
  (∀ a b, dedup a b = a ∨ dedup a b = b) →
  promise (run dedup signals init) = Js.Fulfilled result →
  x ∈ result →
  ndk x = true ∧ ∃ e, Some e ∈ delivered <$> signals ∧ x = set_ndk e.
Proof.
  intros Hdedup Hr Hx.
  destruct (run_holds_deliveries signals Hdedup) as [_ Hp].
  destruct (Hp result x Hr Hx) as (e & Hin & ->). split; [done |]. by exists e.
Qed.

(** Deliveries under keys the map does not hold yet, all different, are
    added as they are. *)
Lemma run_fresh_keys deliveries st :
  Forall (λ sg, sg ≠ Eose) deliveries →
  NoDup (deduplicationKey <$> omap delivered deliveries) →
  (∀ k, k ∈ deduplicationKey <$> omap delivered deliveries →
        events st !! k = None) →
  map_img (events (run dedup deliveries st))
  = (list_to_set (set_ndk <$> omap delivered deliveries) ∪ map_img (events st)
     : gset NDKEvent).
Proof.
  intros Hall. revert st.
  induction Hall as [| sg deliveries Hsg _ IH]; intros st Hnd Hfresh.
  - cbn. by rewrite (left_id_L ∅ (∪)).
  - change (run dedup (sg :: deliveries) st)
      with (run dedup deliveries (step dedup st sg)).
    assert (Hd : ∃ e, delivered sg = Some e
                      ∧ step dedup st sg = onEvent dedup e st).
    { destruct sg as [e | e |]; [by exists e | by exists e | done]. }
    destruct Hd as (e & Hd & ->).
    cbn [omap list_omap] in *. rewrite Hd in *.
    cbn [fmap list_fmap] in *. fold (@omap list _) in *.
    apply NoDup_cons in Hnd as [Hnotin Hnd].
    assert (Hnone : events st !! deduplicationKey e = None)
      by (apply Hfresh; left).
    assert (Hev : events (onEvent dedup e st)
                  = <[deduplicationKey e := set_ndk e]> (events st)).
    { unfold onEvent. cbn [events]. by rewrite Hnone. }
    rewrite IH; [| done |].
    + rewrite Hev, map_img_insert_notin_L by done.
      rewrite list_to_set_cons, (assoc_L (∪)). f_equal. apply (comm_L (∪)).
    + intros k Hk. rewrite Hev, lookup_insert_ne.
      * apply Hfresh. by right.
      * intros <-. done.
Qed.

(** X9: when no two deliveries share a dedup key, [dedupEvent] is never
    consulted and [fetchEvents] resolves with exactly the delivered events,
    each bound to the instance. *)
Theorem fetchEvents_distinct_keys deliveries :
  Forall (λ sg, sg ≠ Eose) deliveries →
  NoDup (deduplicationKey <$> omap delivered deliveries) →
  promise (run dedup (deliveries ++ [Eose]) init)
  = Js.Fulfilled (list_to_set (set_ndk <$> omap delivered deliveries)).
Proof.
  intros Hall Hnd. rewrite fetchEvents_run_app.
  change (run dedup [Eose] (run dedup deliveries init))
    with (onEose (run dedup deliveries init)).
  unfold onEose. cbn [promise].
  rewrite run_deliveries_promise by done. cbn.
  rewrite run_fresh_keys by done. cbn.
  by rewrite map_img_empty_L, (right_id_L ∅ (∪)).
Qed.

End FetchEventsInvariants.

Section FetchSubscription.
Context `{Collaborators}.

(** What [subscribe] leaves alone. *)
Lemma subscribe_frame this fs o rs autoStart :
  let r := subscribe this fs o rs autoStart in
  subManager r.1 = subManager this ++ [mkSub fs o rs autoStart]
  ∧ r.2 = mkSub fs o rs autoStart
  ∧ _signer r.1 = _signer this
  ∧ emitted r.1 = emitted this
  ∧ explicitRelayUrls r.1 = explicitRelayUrls this
  ∧ validationRatio r.1 = validationRatio this
  ∧ autoConnectUserRelays r.1 = autoConnectUserRelays this
  ∧ outboxPool r.1 = outboxPool this
  ∧ (is_Some (outboxTracker r.1) ↔ is_Some (outboxTracker this)).
Proof.
  assert (Htracked : ∀ (tracked : list string) (known : option (list string)),
            is_Some (option_map (λ l, l ++ tracked) known) ↔ is_Some known).
  { intros tracked [l |]; cbn; split; intros [? ?]; by eauto. }
  unfold subscribe. cbn.
  destruct rs as [relays |]; cbn;
    destruct (outboxPool this) as [op |] eqn:Hop; cbn; rewrite ?Hop; cbn;
    try destruct (existsb hasAuthors fs); cbn;
    repeat (split; [done |]); try done; apply Htracked.
Qed.

(** X10: [fetchEvents] registers exactly one subscription, with the
    caller's filters and relay set, never auto-started and with
    [closeOnEose] true whatever the caller's options say; the signer and
    the notifications emitted are untouched, whatever signals follow. *)
Theorem fetchEvents_registers_one_subscription this fs o rs signals :
  ∃ s, subManager (fetchEvents this fs o rs signals).1 = subManager this ++ [s]
    ∧ filters s = fs ∧ relaySet s = rs
    ∧ closeOnEose (opts s) = Some true
    ∧ subId (opts s) = o ≫= subId
    ∧ startScheduled s = false
    ∧ _signer (fetchEvents this fs o rs signals).1 = _signer this
    ∧ emitted (fetchEvents this fs o rs signals).1 = emitted this.
Proof.
  unfold fetchEvents.
  pose proof (subscribe_frame this fs (withCloseOnEose o) rs false) as Hf.
  cbv zeta in Hf. destruct (subscribe _ _ _ _ _) as [this' s].
  cbn [fst snd] in *. destruct Hf as (F1 & F2 & F3 & F4 & _).
  exists (mkSub fs (withCloseOnEose o) rs false).
  rewrite F1, F3, F4. by destruct o.
Qed.

End FetchSubscription.

(** ** The instance, over every sequence of operations *)

Section InstanceInvariants.
Context `{Collaborators}.

(** What the constructor gives each field read below. *)
Lemma constructor_fields opts heap :
  let this := (new_NDK opts heap).1 in
  _signer this = Params.signer opts
  ∧ autoConnectUserRelays this = Js.nullish (Params.autoConnectUserRelays opts) true
  ∧ autoFetchUserMutelist this = Js.nullish (Params.autoFetchUserMutelist opts) true
  ∧ subManager this = []
  ∧ emitted this = match Params.signer opts with
                   | Some signer => [SignerReady signer]
                   | None => []
                   end
  ∧ (is_Some (outboxPool this) ↔ Params.enableOutboxModel opts = Some true)
  ∧ (is_Some (outboxTracker this) ↔ Params.enableOutboxModel opts = Some true).
Proof.
  unfold new_NDK.
  destruct (new_NDKPool _ _ _) as [p h].
  destruct (Params.enableOutboxModel opts) as [[|] |].
  - destruct (new_NDKPool _ _ _). cbn. repeat split; try done; by eauto.
  - cbn. repeat split; try done; by intros [? ?].
  - cbn. repeat split; try done; by intros [? ?].
Qed.

Lemma set_signer_keeps_config this newSigner :
  keeps_config this (set_signer this newSigner).
Proof. by destruct newSigner. Qed.

Lemma addExplicitRelay_keeps_config this heap urlOrRelay policy connect :
  keeps_config this (addExplicitRelay this heap urlOrRelay policy connect).1.1.
Proof. by destruct urlOrRelay. Qed.

Lemma connect_keeps_config this timeoutMs poolConnect outboxConnect :
  keeps_config this (connect this timeoutMs poolConnect outboxConnect).1.
Proof.
  unfold connect, keeps_config.
  destruct (_signer this) as [signer |];
    [destruct (autoConnectUserRelays this);
     [destruct (Signer.relays signer) as [[relays | e] |] |] |];
    cbn; destruct (outboxPool this) eqn:Ho; cbn; rewrite ?Ho;
    repeat split; try done; by eauto.
Qed.

Lemma subscribe_keeps_config this fs o rs autoStart :
  keeps_config this (subscribe this fs o rs autoStart).1.
Proof.
  destruct (subscribe_frame this fs o rs autoStart)
    as (_ & _ & _ & _ & _ & Hv & _ & Hp & Ht).
  split; [done |]. split; [by rewrite Hp | done].
Qed.

Lemma fetchEvent_keeps_config this idOrFilter o rs signals :
  keeps_config this (fetchEvent this idOrFilter o rs signals).1.
Proof.
  unfold fetchEvent. destruct (fetchEvent_filter idOrFilter) as [f |]; [| done].
  pose proof (subscribe_keeps_config this [f] (withCloseOnEose o)
                (fetchEvent_relaySet this idOrFilter rs) false) as Hs.
  by destruct (subscribe _ _ _ _ _).
Qed.

Lemma fetchEvents_keeps_config this fs o rs signals :
  keeps_config this (fetchEvents this fs o rs signals).1.
Proof.
  unfold fetchEvents.
  pose proof (subscribe_keeps_config this fs (withCloseOnEose o) rs false) as Hs.
  by destruct (subscribe _ _ _ _ _).
Qed.

Lemma assertSigner_keeps_config this :
  keeps_config this (assertSigner this).1.
Proof. unfold assertSigner. by destruct (_signer this). Qed.

(** What holds of every reachable instance. *)
Lemma reachable_invariants this :
  reachable this →
  Js.truthy_number (validationRatio this) = true
  ∧ (is_Some (outboxPool this) ↔ is_Some (outboxTracker this)).
Proof.
  assert (Hkeep : ∀ a b, keeps_config a b →
    Js.truthy_number (validationRatio a) = true
    ∧ (is_Some (outboxPool a) ↔ is_Some (outboxTracker a)) →
    Js.truthy_number (validationRatio b) = true
    ∧ (is_Some (outboxPool b) ↔ is_Some (outboxTracker b))).
  { intros a b (Hv & Hp & Ht) [Ha Hc]. rewrite Hv, Hp, Ht. done. }
  induction 1 as [opts heap | | | | | | |].
  - split.
    + rewrite constructor_validationRatio. unfold Js.or_number.
      destruct (Params.validationRatio opts) as [v |]; [| done].
      by destruct (Js.truthy_number v) eqn:Hv.
    + destruct (constructor_fields opts heap) as (_ & _ & _ & _ & _ & Hp & Ht).
      cbv zeta in Hp, Ht. by rewrite Hp, Ht.
  - eapply Hkeep; [apply set_signer_keeps_config | done].
  - eapply Hkeep; [apply addExplicitRelay_keeps_config | done].
  - eapply Hkeep; [apply connect_keeps_config | done].
  - eapply Hkeep; [apply subscribe_keeps_config | done].
  - eapply Hkeep; [apply fetchEvent_keeps_config | done].
  - eapply Hkeep; [apply fetchEvents_keeps_config | done].
  - eapply Hkeep; [apply assertSigner_keeps_config | done].
Qed.

(** X11: on every instance built by the constructor and then used through
    the signer setter, [addExplicitRelay], [connect], [subscribe],
    [fetchEvent], [fetchEvents] and [assertSigner], [validationRatio] is
    neither zero nor NaN: no option given to the constructor makes it so,
    and none of these operations writes it. *)
Theorem reachable_validationRatio_truthy this :
  reachable this → Js.truthy_number (validationRatio this) = true.
Proof. intros Hr. by destruct (reachable_invariants this Hr). Qed.

(** X12: on every such instance the outbox tracker exists exactly when the
    outbox pool does, so the authors [subscribe] collects for a
    subscription are handed to the tracker whenever there is an outbox
    pool. *)
Theorem reachable_outbox_tracker_with_pool this fs o rs autoStart :
  reachable this →
  (is_Some (outboxPool this) ↔ is_Some (outboxTracker this))
  ∧ (is_Some (outboxPool this) → existsb hasAuthors fs = true →
     ∃ known,
       outboxTracker this = Some known
       ∧ outboxTracker (subscribe this fs o rs autoStart).1
         = Some (known ++ concat (map authors (List.filter hasAuthors fs)))).
Proof.
  intros Hr. destruct (reachable_invariants this Hr) as [_ Hc].
  split; [done |]. intros Hp Ha.
  destruct (proj1 Hc Hp) as [known Hk]. exists known. split; [done |].
  destruct Hp as [op Hop].
  unfold subscribe. cbn.
  destruct rs as [relays |]; cbn; rewrite Hop; unfold hasAuthorsFilter;
    cbn; rewrite Ha; cbn; by rewrite Hk.
Qed.

(** X13: the signer given to the constructor or to the setter decides
    [assertSigner]: with a signer it returns normally, without one it
    throws; the setter emits "signer:ready" for a signer and nothing for
    [undefined]. *)
Theorem signer_decides_assertSigner this newSigner opts heap :
  (assertSigner (set_signer this newSigner)).2
    = (if newSigner is Some _ then None else Some (Js.Error "Signer required"))
  ∧ emitted (set_signer this newSigner)
    = emitted this ++ match newSigner with
                      | Some signer => [SignerReady signer]
                      | None => []
                      end
  ∧ (assertSigner (new_NDK opts heap).1).2
    = (if Params.signer opts is Some _ then None
       else Some (Js.Error "Signer required")).
Proof.
  split; [by destruct newSigner |]. split.
  - destruct newSigner; cbn; [done |]. by rewrite (right_id_L [] (++)).
  - destruct (constructor_fields opts heap) as (Hs & _). cbv zeta in Hs.
    unfold assertSigner. rewrite Hs. by destruct (Params.signer opts).
Qed.

(** X14: whenever [connect] rejects it has changed nothing: no relay has
    been added and no pool, main or outbox, has been asked to connect. *)
Theorem connect_rejection_changes_nothing
    this timeoutMs poolConnect outboxConnect e :
  (connect this timeoutMs poolConnect outboxConnect).2 = Js.Failed e →
  (connect this timeoutMs poolConnect outboxConnect).1 = this.
Proof.
  unfold connect.
  destruct (_signer this) as [signer |];
    [destruct (autoConnectUserRelays this);
     [destruct (Signer.relays signer) as [[relays | e'] |] |] |];
    try done; by destruct (outboxPool _).
Qed.


End InstanceInvariants.

(** ** The active user *)

Section ActiveUserFacts.
Import ActiveUser.
Variable connectedRelays_length : Pool.NDKPool → nat.

(** A finished mute-list fetch only adds keys. *)
Lemma mute_fold_keeps (items : list (list string))
    (m : gmap (option string) (option string)) k :
  is_Some (m !! k) →
  is_Some (fold_left (λ m item, <[item !! 1 := item !! 0]> m) items m !! k).
Proof.
  revert m. induction items as [| item items IH]; intros m Hk; [done |].
  cbn [fold_left]. apply IH.
  destruct (decide (item !! 1 = k)) as [<- | Hne].
  - rewrite lookup_insert_eq. by eexists.
  - by rewrite lookup_insert_ne.
Qed.

Lemma mute_fold_adds (items : list (list string))
    (m : gmap (option string) (option string)) item :
  item ∈ items →
  is_Some (fold_left (λ m item, <[item !! 1 := item !! 0]> m) items m
           !! (item !! 1)).
Proof.
  revert m. induction items as [| item' items IH]; intros m Hin.
  - by apply elem_of_nil in Hin.
  - cbn [fold_left]. apply elem_of_cons in Hin as [-> | Hin].
    + apply mute_fold_keeps. rewrite lookup_insert_eq. by eexists.
    + by apply IH.
Qed.

(** Setting a user never touches [mutedIds]. *)
Lemma set_activeUser_some_mutedIds st u :
  mutedIds (set_activeUser connectedRelays_length st (Some u)) = mutedIds st.
Proof.
  unfold set_activeUser. destruct (bool_decide _); [| done].
  by destruct (0 <? _)%nat.
Qed.

(** X16: muted ids pile up across users: after one user's mute list has
    been applied, setting another user keeps every entry, and that user's
    mute list is added to them; only setting the active user to
    [undefined] empties [mutedIds]. *)
Theorem mutedIds_pile_up_across_users st userA itemsA userB itemsB item :
  let set := set_activeUser connectedRelays_length in
  let stA := fetchUserMuteList_done (Some itemsA) (set st (Some userA)) in
  let stB := fetchUserMuteList_done (Some itemsB) (set stA (Some userB)) in
  item ∈ itemsA ++ itemsB →
  is_Some (mutedIds stB !! (item !! 1))
  ∧ mutedIds (set stB None) = ∅.
Proof.
  intros set stA stB Hin. split; [| done].
  unfold stB, fetchUserMuteList_done. cbn [mutedIds].
  unfold set at 1. rewrite set_activeUser_some_mutedIds.
  apply elem_of_app in Hin as [Hin | Hin].
  - apply mute_fold_keeps. unfold stA, fetchUserMuteList_done. cbn [mutedIds].
    by apply mute_fold_adds.
  - by apply mute_fold_adds.
Qed.

(** X17: assigning the same value to [activeUser] twice in a row is the
    same as assigning it once: the second assignment finds the pubkey
    unchanged, so it starts no user function and registers no handler. *)
Theorem set_activeUser_idempotent st user :
  set_activeUser connectedRelays_length
    (set_activeUser connectedRelays_length st user) user
  = set_activeUser connectedRelays_length st user.
Proof.
  destruct user as [u |]; [| done].
  assert (Hsame : ∀ st', _activeUser st' = Some u →
            set_activeUser connectedRelays_length st' (Some u)
            = mkState (instance st') (Some u) (mutedIds st') (running st')
                      (onceConnect st')).
  { intros st' Hu. unfold set_activeUser. rewrite Hu. cbn.
    by rewrite bool_decide_eq_false_2 by (intros Hne; by apply Hne). }
  rewrite Hsame.
  - unfold set_activeUser. destruct (bool_decide _); [| done].
    by destruct (0 <? _)%nat.
  - unfold set_activeUser. destruct (bool_decide _); [| done].
    by destruct (0 <? _)%nat.
Qed.

(** X18: for a user with another pubkey, when the pool consulted (the
    outbox pool if there is one, the main pool otherwise) reports no
    connected relay, nothing is started at once; the user's functions,
    [fetchBlockedRelays] first, start when that pool emits "connect", not
    when the other pool does, and they start once. *)
Theorem set_activeUser_waits_for_pool_connect st user :
  let this := instance st in
  let outbox := bool_decide (is_Some (outboxPool this)) in
  let st' := set_activeUser connectedRelays_length st (Some user) in
  pubkey <$> _activeUser st ≠ Some (pubkey user) →
  connectedRelays_length (default (pool this) (outboxPool this)) = 0 →
  onceConnect st = [] →
  running st' = running st
  ∧ running (onPoolConnect (negb outbox) st') = running st
  ∧ (∃ rest,
       running (onPoolConnect outbox st')
       = running st ++ (fetchBlockedRelays, user) :: rest
       ∧ rest = map (λ fn, (fn, user))
                    ((if autoConnectUserRelays this
                      then [connectToUserRelays] else [])
                     ++ (if autoFetchUserMutelist this
                         then [fetchUserMuteList] else [])))
  ∧ onPoolConnect outbox (onPoolConnect outbox st') = onPoolConnect outbox st'.
Proof.
  intros this outbox st' Hne Hlen Hempty.
  assert (Hst' : st' = mkState this (Some user) (mutedIds st) (running st)
                         [(outbox, map (λ fn, (fn, user)) (userFunctions this))]).
  { unfold st', set_activeUser. cbn [fmap option_fmap option_map].
    rewrite bool_decide_eq_true_2 by done.
    fold this. rewrite Hlen, Hempty. done. }
  rewrite Hst'. unfold onPoolConnect. cbn.
  rewrite Bool.eqb_reflx. cbn.
  assert (Hother : Bool.eqb outbox (negb outbox) = false) by by destruct outbox.
  rewrite Hother. cbn. rewrite !(right_id_L [] (++)).
  split; [done |]. split; [done |]. split; [by eexists |]. done.
Qed.

End ActiveUserFacts.

(** ** Choosing the mints and trying them *)

Section PaymentFacts.
Import Cashu.
Variable executePayment : string → string → float → Js.Settled (option string).

(** X19: a mint is eligible exactly when it is listed with a balance that
    is not below the amount and, if a mint was asked for (a non-empty
    [useMint]), it is that mint; the eligible mints come in the order of
    the balance table. *)
Theorem getEligibleMints_spec balances amount useMint :
  (∀ mint,
     mint ∈ getEligibleMints balances amount useMint
     ↔ ∃ balance, (mint, balance) ∈ balances
          ∧ (Js.truthy useMint = None ∨ useMint = Some mint)
          ∧ (balance <? amount)%float = false)
  ∧ getEligibleMints balances amount useMint `sublist_of` balances.*1.
Proof.
  unfold getEligibleMints.
  set (test := λ '(mint, balance), _).
  assert (Htest : ∀ mint balance,
    test (mint, balance) = true
    ↔ (Js.truthy useMint = None ∨ useMint = Some mint)
      ∧ (balance <? amount)%float = false).
  { intros mint balance. unfold test. destruct useMint as [u |]; cbn.
    - unfold Js.truthy. destruct (Js.truthy_string u) eqn:Hu; cbn.
      + destruct (String.eqb_spec mint u) as [-> | Hne]; cbn.
        * destruct (balance <? amount)%float; intuition congruence.
        * split; [done |]. intros [[? | ?] _]; congruence.
      + destruct (balance <? amount)%float; intuition congruence.
    - destruct (balance <? amount)%float; intuition congruence. }
  clearbody test. split.
  - intros mint. rewrite list_elem_of_In, in_map_iff. split.
    + intros ([m b] & <- & [Hin Ht]%filter_In). exists b.
      split; [by apply list_elem_of_In |]. by apply Htest.
    + intros (b & Hin & Hok). exists (mint, b). split; [done |].
      apply filter_In. split; [by apply list_elem_of_In |]. by apply Htest.
  - induction balances as [| [m b] balances IH]; [done |].
    cbn. destruct (test (m, b)); cbn.
    + by apply sublist_skip.
    + by apply sublist_cons.
Qed.

(** Mints that give nothing, or throw something other than [null] or
    [undefined], are passed over. *)
Lemma attemptPayment_passes_over before rest pr amount tried :
  (∀ m, m ∈ before →
        pays executePayment pr amount m = None
        ∧ executePayment m pr amount ≠ Js.Failed Js.Nullish) →
  attemptPaymentWithEligibleMints executePayment (before ++ rest) pr amount
                                  tried Js.Pending
  = attemptPaymentWithEligibleMints executePayment rest pr amount
                                    (tried ++ before) Js.Pending.
Proof.
  revert tried. induction before as [| m before IH]; intros tried Hpass.
  - by rewrite (right_id_L [] (++)).
  - destruct (Hpass m) as [Hnone Hthrown]; [by left |].
    cbn [app attemptPaymentWithEligibleMints]. unfold pays in Hnone.
    destruct (executePayment m pr amount) as [result | [msg | reason |]];
      rewrite ?Hnone; try done;
      (rewrite IH; [by rewrite <- app_assoc |]);
      intros m' Hm'; apply Hpass; by right.
Qed.

(** The loop at a mint that pays, and at a mint that rejects with [null]
    or [undefined]. *)
Lemma attemptPayment_at_success mint rest pr amount tried preimage :
  pays executePayment pr amount mint = Some preimage →
  attemptPaymentWithEligibleMints executePayment (mint :: rest) pr amount
                                  tried Js.Pending
  = (tried ++ [mint], Js.Fulfilled preimage).
Proof.
  unfold pays. cbn [attemptPaymentWithEligibleMints].
  destruct (executePayment mint pr amount) as [result | e]; [| done].
  by intros ->.
Qed.

Lemma attemptPayment_at_nullish mint rest pr amount tried :
  executePayment mint pr amount = Js.Failed Js.Nullish →
  attemptPaymentWithEligibleMints executePayment (mint :: rest) pr amount
                                  tried Js.Pending
  = (tried ++ [mint], Js.Pending).
Proof. cbn [attemptPaymentWithEligibleMints]. by intros ->. Qed.

(** The loop from any list of mints already tried, given how each call of
    [executePayment] settles. *)
Lemma attemptPayment_from eligible pr amount tried :
  let r := attemptPaymentWithEligibleMints executePayment eligible pr amount
                                           tried Js.Pending in
  let passed := λ m, pays executePayment pr amount m = None
                     ∧ executePayment m pr amount ≠ Js.Failed Js.Nullish in
  (∃ before mint later preimage,
     eligible = before ++ mint :: later
     ∧ (∀ m, m ∈ before → passed m)
     ∧ pays executePayment pr amount mint = Some preimage
     ∧ r = (tried ++ before ++ [mint], Js.Fulfilled preimage))
  ∨ (∃ before mint later,
       eligible = before ++ mint :: later
       ∧ (∀ m, m ∈ before → passed m)
       ∧ executePayment mint pr amount = Js.Failed Js.Nullish
       ∧ r = (tried ++ before ++ [mint], Js.Pending))
  ∨ ((∀ m, m ∈ eligible → passed m)
     ∧ r = (tried ++ eligible,
            Js.Rejected (Js.Reason "Failed to pay with any mint"))).
Proof.
  cbv zeta. revert tried.
  induction eligible as [| mint eligible IH]; intros tried.
  - right. right. cbn. rewrite (right_id_L [] (++)). split; [| done].
    intros m Hm. by apply elem_of_nil in Hm.
  - destruct (pays executePayment pr amount mint) as [preimage |] eqn:Hpays.
    { left. exists [], mint, eligible, preimage.
      split; [done |]. split; [intros m Hm; by apply elem_of_nil in Hm |].
      split; [done |]. by apply attemptPayment_at_success. }
    assert (Hcase : executePayment mint pr amount = Js.Failed Js.Nullish
                    ∨ executePayment mint pr amount ≠ Js.Failed Js.Nullish).
    { destruct (executePayment mint pr amount) as [result | [msg | reason |]];
        [right | right | right | left]; done. }
    destruct Hcase as [Hnull | Hthrown].
    { right. left. exists [], mint, eligible.
      split; [done |]. split; [intros m Hm; by apply elem_of_nil in Hm |].
      split; [done |]. by apply attemptPayment_at_nullish. }
    assert (Hskip :
      attemptPaymentWithEligibleMints executePayment (mint :: eligible) pr
                                      amount tried Js.Pending
      = attemptPaymentWithEligibleMints executePayment eligible pr amount
                                        (tried ++ [mint]) Js.Pending).
    { apply (attemptPayment_passes_over [mint] eligible).
      intros m ->%list_elem_of_singleton. done. }
    rewrite Hskip.
    destruct (IH (tried ++ [mint]))
      as [(before & m' & later & preimage & -> & Hb & Hm & Hr)
         | [(before & m' & later & -> & Hb & Hm & Hr) | [Hall Hr]]];
      rewrite Hr.
    + left. exists (mint :: before), m', later, preimage.
      split; [done |]. split.
      { intros m [-> | Hin]%elem_of_cons; [done | by apply Hb]. }
      split; [done |]. by rewrite <- !app_assoc.
    + right. left. exists (mint :: before), m', later.
      split; [done |]. split.
      { intros m [-> | Hin]%elem_of_cons; [done | by apply Hb]. }
      split; [done |]. by rewrite <- !app_assoc.
    + right. right. split.
      { intros m [-> | Hin]%elem_of_cons; [done | by apply Hall]. }
      by rewrite <- app_assoc.
Qed.

(** X20: given how the calls of [executePayment] settle, the mints are
    tried in order, each once. A mint that resolves with nothing, or
    throws anything but [null] or [undefined], is passed over. The first
    mint that gives a non-empty preimage ends the loop and the promise is
    resolved with it. A mint that rejects with [null] or [undefined] ends
    the loop too, but with the promise still pending: the [catch] throws on
    [error.message], so neither [resolve] nor [reject] is called and the
    later mints are not tried. When every mint has been passed over the
    promise is rejected with "Failed to pay with any mint". *)
Theorem attemptPayment_first_success pr amount :
  let attempt := λ eligible,
    attemptPaymentWithEligibleMints executePayment eligible pr amount
                                    [] Js.Pending in
  let passed := λ m, pays executePayment pr amount m = None
                     ∧ executePayment m pr amount ≠ Js.Failed Js.Nullish in
  (∀ before mint later preimage,
     (∀ m, m ∈ before → passed m) →
     pays executePayment pr amount mint = Some preimage →
     attempt (before ++ mint :: later)
     = (before ++ [mint], Js.Fulfilled preimage))
  ∧ (∀ before mint later,
       (∀ m, m ∈ before → passed m) →
       executePayment mint pr amount = Js.Failed Js.Nullish →
       attempt (before ++ mint :: later) = (before ++ [mint], Js.Pending))
  ∧ (∀ eligible,
       (∀ m, m ∈ eligible → passed m) →
       attempt eligible
       = (eligible, Js.Rejected (Js.Reason "Failed to pay with any mint"))).
Proof.
  cbv zeta. split; [| split].
  - intros before mint later preimage Hpass Hpays.
    rewrite attemptPayment_passes_over by done.
    by apply attemptPayment_at_success.
  - intros before mint later Hpass Hnull.
    rewrite attemptPayment_passes_over by done.
    by apply attemptPayment_at_nullish.
  - intros eligible Hpass.
    rewrite <- (right_id_L [] (++) eligible) at 1.
    by rewrite attemptPayment_passes_over.
Qed.

(** The outcomes of [payLn], by cases. *)
Lemma payLn_cases this useMint :
  let o := payLn executePayment this useMint in
  let amount := (getAmount this / 1000)%float in
  let eligible := getEligibleMints (mintBalances (wallet this)) amount useMint in
  attempted o `prefix_of` eligible
  ∧ mintBalances (wallet_after o) = mintBalances (wallet this)
  ∧ (emitted (wallet_after o) ≠ emitted (wallet this) → eligible = [])
  ∧ (Js.truthy (pr this) = None →
     o = mkOutcome (wallet this) [] (Js.Rejected (Js.Error "missing pr")))
  ∧ (∀ preimage, returned o = Js.Fulfilled preimage →
       ∃ data_pr mint,
         Js.truthy (pr this) = Some data_pr
         ∧ last (attempted o) = Some mint
         ∧ pays executePayment data_pr amount mint = Some preimage)
  ∧ (∀ data_pr mint,
       Js.truthy (pr this) = Some data_pr →
       last (attempted o) = Some mint →
       executePayment mint data_pr amount = Js.Failed Js.Nullish →
       returned o = Js.Pending).
Proof.
  intros o amount eligible. unfold o, payLn. fold amount. fold eligible.
  destruct (Js.truthy (pr this)) as [data_pr |] eqn:Hpr.
  2: { cbn. repeat split; try done. apply prefix_nil. }
  clearbody eligible. destruct eligible as [| mint0 eligible].
  { cbn. repeat split; try done. }
  destruct (attemptPayment_from (mint0 :: eligible) data_pr amount [])
    as [(before & mint & later & preimage & Heq & Hb & Hm & Hr)
       | [(before & mint & later & Heq & Hb & Hm & Hr) | [Hall Hr]]];
    cbv zeta in Hr; rewrite Hr; cbn.
  - repeat split; try done.
    + rewrite Heq. exists later. by rewrite <- app_assoc.
    + intros p [= <-]. exists data_pr, mint. split; [done |].
      split; [apply last_snoc | done].
    + intros d m [= <-] Hlast Hnull. rewrite last_snoc in Hlast.
      simplify_eq. fold amount in Hnull. unfold pays in Hm.
      by rewrite Hnull in Hm.
  - repeat split; try done.
    rewrite Heq. exists later. by rewrite <- app_assoc.
  - repeat split; try done.
    intros d m [= <-] Hlast Hnull.
    apply last_Some_elem_of in Hlast.
    destruct (Hall m Hlast) as [_ Hthrown]. by destruct Hthrown.
Qed.


End PaymentFacts.

(** ** Paying at one mint *)

Section ExecutePaymentFacts.
Import Mint.
Variables (w : NDKCashuWallet) (payment : NDKZapDetails).

Lemma truthy_some_inv (x : option string) (p : string) :
  Js.truthy x = Some p → x = Some p ∧ p ≠ "".
Proof.
  unfold Js.truthy, Js.truthy_string. destruct x as [v |]; [| done].
  destruct (String.eqb_spec v ""); cbn; intros; simplify_eq. done.
Qed.

Lemma truthy_none_inv (p : string) :
  Js.truthy (Some p) = None → p = "".
Proof.
  unfold Js.truthy, Js.truthy_string.
  by destruct (String.eqb_spec p "").
Qed.

(** Where a preimage returned by [executePayment] comes from. *)
Lemma executePayment_preimage_inv mint pr amt p :
  (executePayment w payment mint pr amt).1 = Js.Ok (Some p) →
  ∃ cw mq r,
    walletForMint w mint = Js.Ok (Some cw)
    ∧ createMeltQuote cw pr = Js.Ok mq
    ∧ meltProofs cw mq (proofsForMint w mint) = Js.Ok r
    ∧ payment_preimage (quote r) = Some p
    ∧ ((∃ h, Published h ∈ (executePayment w payment mint pr amt).2)
       ↔ state (quote r) = PAID ∧ p ≠ "").
Proof.
  unfold executePayment.
  destruct (walletForMint w mint) as [[cw |] | e]; [| done | done].
  destruct (_ <? amt)%float; [done |].
  destruct (createMeltQuote cw pr) as [mq | e] eqn:Hq; [| by destruct e].
  destruct (selectProofsToSend cw _ _) as [e |]; [by destruct e |].
  destruct (meltProofs cw mq _) as [r | e] eqn:Hm; [| by destruct e].
  cbn zeta. intros Hres. exists cw, mq, r. do 3 (split; [done |]).
  destruct (state (quote r)) eqn:Hstate.
  - cbn in Hres |- *. simplify_eq. split; [done |]. split.
    + intros (h & Hin). by apply list_elem_of_singleton in Hin.
    + by intros [? _].
  - cbn in Hres |- *. simplify_eq. split; [done |]. split.
    + intros (h & Hin). by apply list_elem_of_singleton in Hin.
    + by intros [? _].
  - destruct (Js.truthy (payment_preimage (quote r))) as [preimage |] eqn:Hpre.
    + destruct (rollOverProofs w _ _ mint) as [rolled | e];
        [| by destruct e].
      cbn in Hres |- *. simplify_eq.
      apply truthy_some_inv in Hpre as [Hp Hne].
      split; [done |]. split; [done |]. intros _. eexists.
      do 2 apply list_elem_of_further. apply list_elem_of_here.
    + cbn in Hres |- *. simplify_eq. split; [done |]. split.
      * intros (h & Hin). by apply list_elem_of_singleton in Hin.
      * intros [_ Hne]. rewrite Hres in Hpre.
        apply truthy_none_inv in Hpre. congruence.
Qed.

(** What [executePayment] has done, by cases. *)
Lemma executePayment_effects mint pr amt :
  (executePayment w payment mint pr amt).2 = []
  ∨ ((fold_left (λ acc p, (acc + amount p)%float) (proofsForMint w mint) 0%float
      <? amt)%float = false
     ∧ (∃ cw, walletForMint w mint = Js.Ok (Some cw))
     ∧ ((executePayment w payment mint pr amt).2
        = [MeltRequested mint (proofsForMint w mint)]
        ∨ (∃ moved,
             (executePayment w payment mint pr amt).2
             = [MeltRequested mint (proofsForMint w mint);
                RolledOver mint (proofsForMint w mint) moved])
        ∨ (∃ moved rolled q preimage fee,
             executePayment w payment mint pr amt
             = (Js.Ok (Some preimage),
                [MeltRequested mint (proofsForMint w mint);
                 RolledOver mint (proofsForMint w mint) moved;
                 Published (historyEvent w payment rolled q preimage fee)])
             ∧ preimage ≠ ""))).
Proof.
  unfold executePayment.
  destruct (walletForMint w mint) as [[cw |] | e]; [| by left | by left].
  destruct (_ <? amt)%float eqn:Hlow; [by left |].
  destruct (createMeltQuote cw pr) as [mq | e]; [| by left].
  destruct (selectProofsToSend cw _ _) as [e |]; [by left |].
  right. split; [done |]. split; [by exists cw |].
  destruct (meltProofs cw mq _) as [r | e]; [| by left].
  cbn zeta.
  destruct (state (quote r)); [by left | by left |].
  destruct (Js.truthy (payment_preimage (quote r))) as [preimage |] eqn:Hpre;
    [| by left].
  apply truthy_some_inv in Hpre as [_ Hne].
  destruct (rollOverProofs w _ _ mint) as [rolled | e].
  - right. right. by eexists _, _, _, _, _.
  - right. left. by eexists.
Qed.

(** X22: whenever [executePayment] asks a mint to melt, the wallet for
    that mint was loaded, the proofs held there are not below the amount,
    and all of them are handed over, not a selection. *)
Theorem executePayment_melts_all_or_nothing mint pr amt m proofs :
  MeltRequested m proofs ∈ (executePayment w payment mint pr amt).2 →
  m = mint
  ∧ proofs = proofsForMint w mint
  ∧ (fold_left (λ acc p, (acc + amount p)%float) (proofsForMint w mint) 0%float
     <? amt)%float = false
  ∧ ∃ cw, walletForMint w mint = Js.Ok (Some cw).
Proof.
  intros Hin.
  destruct (executePayment_effects mint pr amt)
    as [Hnil | (Hlow & Hcw & [Heff | [(moved & Heff)
                              | (moved & rolled & q & p & f & Heff & _)]])].
  - rewrite Hnil in Hin. by apply elem_of_nil in Hin.
  - rewrite Heff in Hin. apply list_elem_of_singleton in Hin. by simplify_eq.
  - rewrite Heff in Hin.
    apply elem_of_cons in Hin as [Hin | Hin]; [by simplify_eq |].
    by apply list_elem_of_singleton in Hin.
  - rewrite Heff in Hin. cbn [snd] in Hin.
    apply elem_of_cons in Hin as [Hin | Hin]; [by simplify_eq |].
    apply elem_of_cons in Hin as [Hin | Hin]; [done |].
    by apply list_elem_of_singleton in Hin.
Qed.

(** X23: once the mint's wallet is loaded, [executePayment] rejects only
    with [Error] objects: anything else thrown while quoting, selecting,
    melting or rolling over is turned into [null]. *)
Theorem executePayment_rejects_only_with_errors mint pr amt e :
  (executePayment w payment mint pr amt).1 = Js.Failed e →
  walletForMint w mint = Js.Failed e ∨ ∃ message, e = Js.Error message.
Proof.
  unfold executePayment, caught.
  repeat case_match; cbn [fst]; intros; simplify_eq; eauto.
Qed.

(** X24: a preimage [executePayment] resolves with is the
    [payment_preimage] of the quote the melt came back with, whatever the
    state of that quote; the history event is published exactly when the
    state is [PAID] and the preimage is not empty. *)
Theorem executePayment_preimage_from_melt mint pr amt p :
  (executePayment w payment mint pr amt).1 = Js.Ok (Some p) →
  ∃ cw mq r,
    walletForMint w mint = Js.Ok (Some cw)
    ∧ createMeltQuote cw pr = Js.Ok mq
    ∧ meltProofs cw mq (proofsForMint w mint) = Js.Ok r
    ∧ payment_preimage (quote r) = Some p
    ∧ ((∃ h, Published h ∈ (executePayment w payment mint pr amt).2)
       ↔ state (quote r) = PAID ∧ p ≠ "").
Proof. apply executePayment_preimage_inv. Qed.

(** X25: a history event is published only after the melt and the
    roll-over, as the last thing done, and only together with a non-empty
    preimage as the result; it is an outgoing change that carries that
    preimage in a tag. *)
Theorem executePayment_history_only_when_paid mint pr amt h :
  Published h ∈ (executePayment w payment mint pr amt).2 →
  ∃ preimage moved,
    (executePayment w payment mint pr amt).1 = Js.Ok (Some preimage)
    ∧ preimage ≠ ""
    ∧ (executePayment w payment mint pr amt).2
      = [MeltRequested mint (proofsForMint w mint);
         RolledOver mint (proofsForMint w mint) moved;
         Published h]
    ∧ direction h = "out"
    ∧ ["preimage"; preimage] ∈ tags h.
Proof.
  intros Hin.
  destruct (executePayment_effects mint pr amt)
    as [Hnil | (Hlow & Hcw & [Heff | [(moved & Heff)
                              | (moved & rolled & q & p & f & Heff & Hne)]])].
  - rewrite Hnil in Hin. by apply elem_of_nil in Hin.
  - rewrite Heff in Hin. by apply list_elem_of_singleton in Hin.
  - rewrite Heff in Hin.
    apply elem_of_cons in Hin as [Hin | Hin]; [done |].
    by apply list_elem_of_singleton in Hin.
  - rewrite Heff in Hin |- *. cbn [fst snd] in Hin |- *.
    apply elem_of_cons in Hin as [Hin | Hin]; [done |].
    apply elem_of_cons in Hin as [Hin | Hin]; [done |].
    apply list_elem_of_singleton in Hin. simplify_eq.
    exists p, moved. repeat (split; [done |]).
    unfold historyEvent. cbn [tags].
    rewrite !elem_of_app. do 3 right. by apply list_elem_of_singleton.
Qed.

(** X26: when [payLn], with [executePayment] as the source has it, is
    fulfilled with a preimage, that preimage is the [payment_preimage] of
    a melt made at an eligible mint with all the proofs held there. *)
Theorem payLn_fulfilled_means_melted this useMint preimage :
  Cashu.returned (payLn w payment this useMint) = Js.Fulfilled preimage →
  ∃ data_pr mint cw mq r,
    Js.truthy (Cashu.pr this) = Some data_pr
    ∧ mint ∈ Cashu.getEligibleMints (Cashu.mintBalances (Cashu.wallet this))
                                    (Cashu.getAmount this / 1000)%float useMint
    ∧ walletForMint w mint = Js.Ok (Some cw)
    ∧ createMeltQuote cw data_pr = Js.Ok mq
    ∧ meltProofs cw mq (proofsForMint w mint) = Js.Ok r
    ∧ payment_preimage (quote r) = Some preimage.
Proof.
  intros Hret. unfold payLn in Hret.
  destruct (payLn_cases
              (λ mint pr amt, (executePayment w payment mint pr amt).1)
              this useMint) as (Hprefix & _ & _ & _ & Hful & _).
  cbv zeta in Hprefix, Hful.
  destruct (Hful preimage Hret) as (data_pr & mint & Hpr & Hlast & Hpays).
  unfold pays in Hpays.
  destruct (executePayment w payment mint data_pr _).1 as [result | e] eqn:Hex;
    [| done].
  apply truthy_some_inv in Hpays as [-> _].
  destruct (executePayment_preimage_inv _ _ _ _ Hex)
    as (cw & mq & r & H1 & H2 & H3 & H4 & _).
  exists data_pr, mint, cw, mq, r. repeat (split; [done |]).
  split; [| done].
  apply last_Some in Hlast as [tried Htried].
  destruct Hprefix as [more Hmore]. rewrite Hmore, Htried.
  apply elem_of_app. left. apply elem_of_app. right.
  by apply list_elem_of_singleton.
Qed.

End ExecutePaymentFacts.

(** ** The further properties at concrete inputs *)

(** X2 at a relay list resolved by end-of-stream, then a newer copy and the
    timeout. *)
Lemma fetchEvent_settles_once_witness :
  FetchEvent.promise
    (FetchEvent.run
       ([FetchEvent.Event Sample.relayList_a; FetchEvent.Eose]
        ++ [FetchEvent.Event Sample.relayList_c; FetchEvent.Timeout])
       FetchEvent.init)
  = Js.Fulfilled (Some (set_ndk Sample.relayList_a))
  ∧ FetchEvent.s_stops
      (FetchEvent.run
         ([FetchEvent.Event Sample.relayList_a; FetchEvent.Eose]
          ++ [FetchEvent.Event Sample.relayList_c; FetchEvent.Timeout])
         FetchEvent.init)
    = FetchEvent.s_stops
        (FetchEvent.run [FetchEvent.Event Sample.relayList_a; FetchEvent.Eose]
                        FetchEvent.init).
Proof.
  apply (fetchEvent_settles_once
           [FetchEvent.Event Sample.relayList_a; FetchEvent.Eose]
           [FetchEvent.Event Sample.relayList_c; FetchEvent.Timeout]
           (Some (set_ndk Sample.relayList_a))).
  reflexivity.
Defined.

(** X4 at a text note arriving after a relay list. *)
Lemma fetchEvent_non_replaceable_wins_witness :
  FetchEvent.promise
    (FetchEvent.run
       ([FetchEvent.Event Sample.relayList_a; FetchEvent.IntervalTick]
        ++ FetchEvent.Event Sample.note :: [FetchEvent.Eose])
       FetchEvent.init)
  = Js.Fulfilled (Some (set_ndk Sample.note)).
Proof.
  apply (fetchEvent_non_replaceable_wins
           [FetchEvent.Event Sample.relayList_a; FetchEvent.IntervalTick]
           Sample.note [FetchEvent.Eose]).
  - reflexivity.
  - reflexivity.
Defined.

(** X5 at two copies of a relay list and end-of-stream. *)
Lemma fetchEvent_resolves_with_delivered_witness :
  ndk (set_ndk Sample.relayList_c) = true
  ∧ ∃ e, FetchEvent.Event e
         ∈ [FetchEvent.Event Sample.relayList_a;
            FetchEvent.Event Sample.relayList_c; FetchEvent.Eose]
         ∧ set_ndk Sample.relayList_c = set_ndk e.
Proof.
  apply (fetchEvent_resolves_with_delivered
           [FetchEvent.Event Sample.relayList_a;
            FetchEvent.Event Sample.relayList_c; FetchEvent.Eose]
           (set_ndk Sample.relayList_c)).
  reflexivity.
Defined.

(** X6 at three deliveries. *)
Lemma fetchEvents_pending_without_eose_witness :
  FetchEvents.promise
    (FetchEvents.run (@dedupEvent Sample.collaborators)
       [FetchEvents.Event Sample.relayList_a;
        FetchEvents.EventDup Sample.relayList_b;
        FetchEvents.Event Sample.note]
       FetchEvents.init)
  = Js.Pending.
Proof.
  apply (fetchEvents_pending_without_eose (@dedupEvent Sample.collaborators)
           [FetchEvents.Event Sample.relayList_a;
            FetchEvents.EventDup Sample.relayList_b;
            FetchEvents.Event Sample.note]).
  repeat constructor; discriminate.
Defined.

Lemma fetchEvents_resolves_at_first_eose_witness :
  FetchEvents.promise
    (FetchEvents.run (@dedupEvent Sample.collaborators)
       ([FetchEvents.Event Sample.relayList_a;
         FetchEvents.EventDup Sample.relayList_b]
        ++ FetchEvents.Eose
        :: [FetchEvents.Event Sample.note; FetchEvents.Eose])
       FetchEvents.init)
  = Js.Fulfilled
      (map_img
         (FetchEvents.events
            (FetchEvents.run (@dedupEvent Sample.collaborators)
               [FetchEvents.Event Sample.relayList_a;
                FetchEvents.EventDup Sample.relayList_b]
               FetchEvents.init))).
Proof.
  apply (fetchEvents_resolves_at_first_eose (@dedupEvent Sample.collaborators)
           [FetchEvents.Event Sample.relayList_a;
            FetchEvents.EventDup Sample.relayList_b]
           [FetchEvents.Event Sample.note; FetchEvents.Eose]).
  repeat constructor; discriminate.
Defined.

(** X8 at two copies of a relay list and end-of-stream. *)
Lemma fetchEvents_resolves_with_delivered_witness :
  ndk (set_ndk Sample.relayList_c) = true
  ∧ ∃ e, Some e
         ∈ FetchEvents.delivered
           <$> [FetchEvents.Event Sample.relayList_a;
                FetchEvents.Event Sample.relayList_c; FetchEvents.Eose]
         ∧ set_ndk Sample.relayList_c = set_ndk e.
Proof.
  apply (fetchEvents_resolves_with_delivered
           (@dedupEvent Sample.collaborators)
           [FetchEvents.Event Sample.relayList_a;
            FetchEvents.Event Sample.relayList_c; FetchEvents.Eose]
           (map_img
              (FetchEvents.events
                 (FetchEvents.run (@dedupEvent Sample.collaborators)
                    [FetchEvents.Event Sample.relayList_a;
                     FetchEvents.Event Sample.relayList_c]
                    FetchEvents.init)))
           (set_ndk Sample.relayList_c)).
  - intros a b. cbn. destruct (created_at b <? created_at a)%Z; auto.
  - reflexivity.
  - apply elem_of_map_img. exists "10002:alice". vm_compute. reflexivity.
Defined.

(** X9 at a relay list and a text note. *)
Lemma fetchEvents_distinct_keys_witness :
  FetchEvents.promise
    (FetchEvents.run (@dedupEvent Sample.collaborators)
       ([FetchEvents.Event Sample.relayList_a; FetchEvents.EventDup Sample.note]
        ++ [FetchEvents.Eose])
       FetchEvents.init)
  = Js.Fulfilled
      (list_to_set
         (set_ndk
          <$> omap FetchEvents.delivered
                [FetchEvents.Event Sample.relayList_a;
                 FetchEvents.EventDup Sample.note])).
Proof.
  apply (fetchEvents_distinct_keys (@dedupEvent Sample.collaborators)
           [FetchEvents.Event Sample.relayList_a;
            FetchEvents.EventDup Sample.note]).
  - repeat constructor; discriminate.
  - apply (bool_decide_unpack _). vm_compute. exact I.
Defined.

(** X11 at an instance built with the outbox model, connected and used for
    a fetch. *)
Lemma reachable_validationRatio_truthy_witness :
  Js.truthy_number (validationRatio Inputs.ndk_outbox) = true.
Proof.
  apply (@reachable_validationRatio_truthy Sample.collaborators).
  apply reach_fetchEvents, reach_connect, reach_new.
Defined.

(** X12 at the same instance and a subscription with an author. *)
Lemma reachable_outbox_tracker_with_pool_witness :
  (is_Some (outboxPool Inputs.ndk_outbox)
   ↔ is_Some (outboxTracker Inputs.ndk_outbox))
  ∧ (is_Some (outboxPool Inputs.ndk_outbox) →
     existsb hasAuthors [Sample.filter_relayList] = true →
     ∃ known,
       outboxTracker Inputs.ndk_outbox = Some known
       ∧ outboxTracker
           (@subscribe Inputs.ndk_outbox [Sample.filter_relayList]
              (mkSubOpts None None) None true).1
         = Some (known
                 ++ concat (map authors
                              (List.filter hasAuthors [Sample.filter_relayList])))).
Proof.
  apply (@reachable_outbox_tracker_with_pool Sample.collaborators).
  apply reach_fetchEvents, reach_connect, reach_new.
Defined.

(** X14 at an instance whose signer's [relays()] rejects. *)
Lemma connect_rejection_changes_nothing_witness :
  (connect Sample.ndk_with_failing_signer (Some 2000%Z) (Js.Ok tt) (Js.Ok tt)).1
  = Sample.ndk_with_failing_signer.
Proof.
  apply (connect_rejection_changes_nothing Sample.ndk_with_failing_signer
           (Some 2000%Z) (Js.Ok tt) (Js.Ok tt) (Js.Error "denied")).
  reflexivity.
Defined.


(** X16 at two users with one muted id each. *)
Lemma mutedIds_pile_up_across_users_witness :
  let set := ActiveUser.set_activeUser Inputs.none_connected in
  let stA := ActiveUser.fetchUserMuteList_done (Some [["p"; "mallory"]])
               (set Inputs.session (Some Inputs.alice)) in
  let stB := ActiveUser.fetchUserMuteList_done (Some [["e"; "note9"]])
               (set stA (Some Inputs.bob)) in
  is_Some (ActiveUser.mutedIds stB !! (["p"; "mallory"] !! 1))
  ∧ ActiveUser.mutedIds (set stB None) = ∅.
Proof.
  apply (mutedIds_pile_up_across_users Inputs.none_connected Inputs.session
           Inputs.alice [["p"; "mallory"]] Inputs.bob [["e"; "note9"]]
           ["p"; "mallory"]).
  apply elem_of_app. left. apply list_elem_of_here.
Defined.

(** X18 at a first user and no connected relay. *)
Lemma set_activeUser_waits_for_pool_connect_witness :
  let this := ActiveUser.instance Inputs.session in
  let outbox := bool_decide (is_Some (outboxPool this)) in
  let st' := ActiveUser.set_activeUser Inputs.none_connected Inputs.session
               (Some Inputs.alice) in
  ActiveUser.running st' = ActiveUser.running Inputs.session
  ∧ ActiveUser.running (ActiveUser.onPoolConnect (negb outbox) st')
    = ActiveUser.running Inputs.session
  ∧ (∃ rest,
       ActiveUser.running (ActiveUser.onPoolConnect outbox st')
       = ActiveUser.running Inputs.session
         ++ (ActiveUser.fetchBlockedRelays, Inputs.alice) :: rest
       ∧ rest = map (λ fn, (fn, Inputs.alice))
                    ((if autoConnectUserRelays this
                      then [ActiveUser.connectToUserRelays] else [])
                     ++ (if autoFetchUserMutelist this
                         then [ActiveUser.fetchUserMuteList] else [])))
  ∧ ActiveUser.onPoolConnect outbox (ActiveUser.onPoolConnect outbox st')
    = ActiveUser.onPoolConnect outbox st'.
Proof.
  apply (set_activeUser_waits_for_pool_connect Inputs.none_connected
           Inputs.session Inputs.alice).
  - discriminate.
  - reflexivity.
  - reflexivity.
Defined.

(** X22 at a mint that melts. *)
Lemma executePayment_melts_all_or_nothing_witness :
  "https://mint.a" = "https://mint.a"
  ∧ [Mint.mkProof 8%float "s1"; Mint.mkProof 2%float "s2"]
    = Mint.proofsForMint Inputs.wallet "https://mint.a"
  ∧ (fold_left (λ acc p, (acc + Mint.amount p)%float)
               (Mint.proofsForMint Inputs.wallet "https://mint.a") 0%float
     <? 5)%float = false
  ∧ ∃ cw, Mint.walletForMint Inputs.wallet "https://mint.a" = Js.Ok (Some cw).
Proof.
  apply (executePayment_melts_all_or_nothing Inputs.wallet Inputs.zap_bob
           "https://mint.a" "lnbc50n1invoice" 5%float "https://mint.a"
           [Mint.mkProof 8%float "s1"; Mint.mkProof 2%float "s2"]).
  vm_compute. apply list_elem_of_here.
Defined.

(** X20 at three mints: the first gives nothing and is passed over, the
    second rejects with [undefined]; the loop ends there with the promise
    pending, and the third mint, which would pay, is not tried. *)
Lemma attemptPayment_first_success_witness :
  Cashu.attemptPaymentWithEligibleMints Inputs.null_then_undefined
    (["https://mint.a"] ++ "https://mint.b" :: ["https://mint.c"])
    "lnbc50n1invoice" 5%float [] Js.Pending
  = (["https://mint.a"] ++ ["https://mint.b"], Js.Pending).
Proof.
  apply (proj1 (proj2 (attemptPayment_first_success
                         Inputs.null_then_undefined "lnbc50n1invoice" 5%float))
           ["https://mint.a"] "https://mint.b" ["https://mint.c"]).
  - intros m ->%list_elem_of_singleton. split; [reflexivity | discriminate].
  - reflexivity.
Defined.


(** X23 at a mint whose wallet does not load. *)
Lemma executePayment_rejects_only_with_errors_witness :
  Mint.walletForMint Inputs.wallet "https://mint.b"
  = Js.Failed (Js.Error "unable to load wallet for mint https://mint.b")
  ∨ ∃ message,
      Js.Error "unable to load wallet for mint https://mint.b" = Js.Error message.
Proof.
  apply (executePayment_rejects_only_with_errors Inputs.wallet Inputs.zap_bob
           "https://mint.b" "lnbc50n1invoice" 5%float
           (Js.Error "unable to load wallet for mint https://mint.b")).
  reflexivity.
Defined.

(** X24 at a mint that melts to a paid quote. *)
Lemma executePayment_preimage_from_melt_witness :
  ∃ cw mq r,
    Mint.walletForMint Inputs.wallet "https://mint.a" = Js.Ok (Some cw)
    ∧ Mint.createMeltQuote cw "lnbc50n1invoice" = Js.Ok mq
    ∧ Mint.meltProofs cw mq (Mint.proofsForMint Inputs.wallet "https://mint.a")
      = Js.Ok r
    ∧ Mint.payment_preimage (Mint.quote r) = Some "preimage-5"
    ∧ ((∃ h, Mint.Published h
             ∈ (Mint.executePayment Inputs.wallet Inputs.zap_bob
                  "https://mint.a" "lnbc50n1invoice" 5%float).2)
       ↔ Mint.state (Mint.quote r) = Mint.PAID ∧ "preimage-5" ≠ "").
Proof.
  apply (executePayment_preimage_from_melt Inputs.wallet Inputs.zap_bob
           "https://mint.a" "lnbc50n1invoice" 5%float "preimage-5").
  reflexivity.
Defined.

(** X25 at the same payment: the history event it publishes. *)
Lemma executePayment_history_only_when_paid_witness :
  let h := Mint.historyEvent Inputs.wallet Inputs.zap_bob
             (Mint.mkRollover ["t1"] (Some "t2"))
             (Mint.mkQuote 5%float 1%float Mint.PAID (Some "preimage-5"))
             "preimage-5"
             (Mint.calculateFee 5%float
                (Mint.proofsForMint Inputs.wallet "https://mint.a")
                [Mint.mkProof 2%float "c1"]) in
  ∃ preimage moved,
    (Mint.executePayment Inputs.wallet Inputs.zap_bob
       "https://mint.a" "lnbc50n1invoice" 5%float).1 = Js.Ok (Some preimage)
    ∧ preimage ≠ ""
    ∧ (Mint.executePayment Inputs.wallet Inputs.zap_bob
         "https://mint.a" "lnbc50n1invoice" 5%float).2
      = [Mint.MeltRequested "https://mint.a"
           (Mint.proofsForMint Inputs.wallet "https://mint.a");
         Mint.RolledOver "https://mint.a"
           (Mint.proofsForMint Inputs.wallet "https://mint.a") moved;
         Mint.Published h]
    ∧ Mint.direction h = "out"
    ∧ ["preimage"; preimage] ∈ Mint.tags h.
Proof.
  apply (executePayment_history_only_when_paid Inputs.wallet Inputs.zap_bob
           "https://mint.a" "lnbc50n1invoice" 5%float).
  vm_compute. do 2 apply list_elem_of_further. apply list_elem_of_here.
Defined.

(** X26 at a payment of 5 sats from that wallet. *)
Lemma payLn_fulfilled_means_melted_witness :
  ∃ data_pr mint cw mq r,
    Js.truthy (Cashu.pr Sample.pay_5_sats) = Some data_pr
    ∧ mint ∈ Cashu.getEligibleMints
               (Cashu.mintBalances (Cashu.wallet Sample.pay_5_sats))
               (Cashu.getAmount Sample.pay_5_sats / 1000)%float None
    ∧ Mint.walletForMint Inputs.wallet mint = Js.Ok (Some cw)
    ∧ Mint.createMeltQuote cw data_pr = Js.Ok mq
    ∧ Mint.meltProofs cw mq (Mint.proofsForMint Inputs.wallet mint) = Js.Ok r
    ∧ Mint.payment_preimage (Mint.quote r) = Some "preimage-5".
Proof.
  apply (payLn_fulfilled_means_melted Inputs.wallet Inputs.zap_bob
           Sample.pay_5_sats None "preimage-5").
  reflexivity.
Defined.
